(** * uestcer/utils: slice helpers, the map-backed Set and the wrapping errors

    A shallow embedding of the three Go packages of the repository
    ([slice], [collection], [errors]) and the properties their
    documentation states about them.

    Conventions of the embedding:
    - a Go [int] is a [Z]; none of the modelled code does arithmetic that
      could leave the 64-bit range on inputs that fit in memory;
    - a Go call either returns, panics, or (for the model only) runs out of
      the fuel that bounds its loops: [outcome];
    - a method with a pointer receiver that mutates it returns the new
      receiver next to its result. *)

From stdpp Require Import gmap strings list fin_maps fin_sets.
From Stdlib Require Import ZArith Ascii.

Open Scope Z_scope.

(** ** Outcomes of a call *)

Inductive outcome (A : Type) : Type :=
| Ret (a : A)            (* normal return *)
| Panic (msg : string)   (* run-time panic *)
| OutOfFuel.             (* the loop bound of the model was too small *)

Arguments Ret {A} a.
Arguments Panic {A} msg.
Arguments OutOfFuel {A}.

#[global] Instance outcome_ret : MRet outcome := @Ret.

#[global] Instance outcome_bind : MBind outcome := fun A B k m =>
  match m with
  | Ret a => k a
  | Panic msg => Panic msg
  | OutOfFuel => OutOfFuel
  end.

(** ** Package slice *)

Module Slice.

(** [reflect.Kind], as far as the package looks at it. *)
Inductive otherKind : Type :=
| Invalid | Bool | Int | Float64 | String | Array | Chan | Map | Struct | Interface.

Inductive Kind : Type :=
| Ptr | Slice | Func | Other (k : otherKind).

Definition Kind_String (k : Kind) : string :=
  match k with
  | Ptr => "ptr"
  | Slice => "slice"
  | Func => "func"
  | Other Invalid => "invalid"
  | Other Bool => "bool"
  | Other Int => "int"
  | Other Float64 => "float64"
  | Other String => "string"
  | Other Array => "array"
  | Other Chan => "chan"
  | Other Map => "map"
  | Other Struct => "struct"
  | Other Interface => "interface"
  end.

(** A Go slice header: [nil], or a (possibly empty) backing sequence. *)
Inductive slice (A : Type) : Type :=
| NilSlice
| MkSlice (elems : list A).

Arguments NilSlice {A}.
Arguments MkSlice {A} elems.

Definition elems {A} (s : slice A) : list A :=
  match s with
  | NilSlice => []
  | MkSlice l => l
  end.

Definition len {A} (s : slice A) : Z := Z.of_nat (length (elems s)).

(** [make([]T, n)]: [n] zero values, never nil. *)
Definition make {A} (zero : A) (n : Z) : slice A :=
  MkSlice (replicate (Z.to_nat n) zero).

(** [append(s, x)]. *)
Definition append {A} (s : slice A) (x : A) : slice A :=
  MkSlice (elems s ++ [x]).

(** [interface{}] over the dynamic values [E]; [None] is the nil interface. *)
Abbreviation iface := option.

(** Predicates are Go functions of one argument returning one bool. *)
Abbreviation pred E := (option E -> bool).

Section Ops.

(** The dynamic values an [interface{}] can hold, apart from [nil]. *)
Variable E : Type.

(** [interface{}]: [None] is the nil interface. *)
#[local] Abbreviation iface := (option E).

(** What [reflect.ValueOf] can find behind an [interface{}] argument. [F] is
    the Go type of the function values.  A nil pointer is a pointer whose
    [Elem()] is the zero Value, of kind Invalid. *)
Inductive Value (F : Type) : Type :=
| VSlice (s : slice iface)
| VFunc (f : F)
| VPtr (elem : Value F)
| VOther (k : otherKind).

Arguments VSlice {F} s.
Arguments VFunc {F} f.
Arguments VPtr {F} elem.
Arguments VOther {F} k.

Definition Value_Kind {F} (v : Value F) : Kind :=
  match v with
  | VSlice _ => Slice
  | VFunc _ => Func
  | VPtr _ => Ptr
  | VOther k => Other k
  end.

Definition Value_Elem {F} (v : Value F) : Value F :=
  match v with
  | VPtr p => p
  | _ => v
  end.

(** [reflectFunc]: one pointer is followed, then the kind must be Func. *)
Definition reflectFunc {F} (f : Value F) : outcome F :=
  let v := f in
  let v := match Value_Kind v with Ptr => Value_Elem v | _ => v end in
  match v with
  | VFunc fn => Ret fn
  | _ => Panic ("utils/slice: argument type is not func, " +:+ Kind_String (Value_Kind v) +:+ ".")
  end.

(** [reflectSlice]: one pointer is followed, then the kind must be Slice. *)
Definition reflectSlice {F} (i : Value F) : outcome (slice iface) :=
  let v := i in
  let v := match Value_Kind v with Ptr => Value_Elem v | _ => v end in
  match v with
  | VSlice s => Ret s
  | _ => Panic ("utils/slice: argument type is not slice, " +:+ Kind_String (Value_Kind v) +:+ ".")
  end.

(** [v.Index(i)]: panics outside [0, v.Len()). *)
Definition Value_Index (v : slice iface) (i : Z) : outcome iface :=
  if (0 <=? i) && (i <? len v) then
    match elems v !! Z.to_nat i with
    | Some e => Ret e
    | None => Panic "reflect: slice index out of range"
    end
  else Panic "reflect: slice index out of range".

(** [container/list.List]: the elements front to back; the pointer may be nil. *)
#[local] Abbreviation List := (list iface).

Definition list_New : List := [].
Definition PushBack (l : List) (x : iface) : List := l ++ [x].

Definition AsList (elements : list iface) : List :=
  foldl PushBack list_New elements.

(** [for i := 0; i < v.Len(); i++ { l.PushBack(v.Index(i).Interface()) }] *)
Fixpoint ToList_loop (fuel : nat) (v : slice iface) (i : Z) (l : List) : outcome List :=
  match fuel with
  | O => OutOfFuel
  | S fuel' =>
      if i <? len v then
        e ← Value_Index v i;
        ToList_loop fuel' v (i + 1) (PushBack l e)
      else Ret l
  end.

Definition ToList {F} (s : Value F) : outcome List :=
  v ← reflectSlice s;
  ToList_loop (S (length (elems v))) v 0 list_New.

(** [result[i] = x]: panics outside the slice. *)
Definition store (result : slice iface) (i : Z) (x : iface) : outcome (slice iface) :=
  if (0 <=? i) && (i <? len result) then
    Ret (MkSlice (<[Z.to_nat i := x]> (elems result)))
  else Panic "index out of range".

(** [for e := l.Front(); e != nil; e = e.Next() { result[i] = e.Value; i++ }]:
    the walk over the list nodes is the recursion over the list. *)
Fixpoint ToSlice_loop (rest : List) (result : slice iface) (i : Z) : outcome (slice iface) :=
  match rest with
  | [] => Ret result
  | value :: rest' =>
      result' ← store result i value;
      ToSlice_loop rest' result' (i + 1)
  end.

Definition ToSlice (l : option List) : outcome (slice iface) :=
  match l with
  | None => Ret (make None 0)
  | Some l =>
      let result := make None (Z.of_nat (length l)) in
      ToSlice_loop l result 0
  end.

(** The function argument is called through [v2.Call(...)[0].Bool()]; the
    model takes functions of the right shape, a Go func of one argument
    returning one bool. *)
#[local] Abbreviation pred := (iface -> bool).

(** [for i := 0; i < v1.Len(); i++ { if f(v1[i]) { return true } }; return false] *)
Fixpoint Exist_loop (fuel : nat) (v1 : slice iface) (v2 : pred) (i : Z) : outcome bool :=
  match fuel with
  | O => OutOfFuel
  | S fuel' =>
      if i <? len v1 then
        e ← Value_Index v1 i;
        if v2 e then Ret true else Exist_loop fuel' v1 v2 (i + 1)
      else Ret false
  end.

Definition Exist (i f : Value pred) : outcome bool :=
  v1 ← reflectSlice i;
  v2 ← reflectFunc f;
  Exist_loop (S (length (elems v1))) v1 v2 0.

Fixpoint Filter_loop (fuel : nat) (v1 : slice iface) (v2 : pred) (i : Z)
    (result : slice iface) : outcome (slice iface) :=
  match fuel with
  | O => OutOfFuel
  | S fuel' =>
      if i <? len v1 then
        e ← Value_Index v1 i;
        if v2 e then Filter_loop fuel' v1 v2 (i + 1) (append result e)
        else Filter_loop fuel' v1 v2 (i + 1) result
      else Ret result
  end.

Definition Filter (i f : Value pred) : outcome (slice iface) :=
  v1 ← reflectSlice i;
  v2 ← reflectFunc f;
  let result := make None 0 in
  Filter_loop (S (length (elems v1))) v1 v2 0 result.

Fixpoint Index_loop (fuel : nat) (v1 : slice iface) (v2 : pred) (i : Z) : outcome Z :=
  match fuel with
  | O => OutOfFuel
  | S fuel' =>
      if i <? len v1 then
        e ← Value_Index v1 i;
        if v2 e then Ret i else Index_loop fuel' v1 v2 (i + 1)
      else Ret (-1)
  end.

Definition Index (i f : Value pred) : outcome Z :=
  v1 ← reflectSlice i;
  v2 ← reflectFunc f;
  Index_loop (S (length (elems v1))) v1 v2 0.

Fixpoint Find_loop (fuel : nat) (v1 : slice iface) (v2 : pred) (i : Z)
    : outcome (bool * iface) :=
  match fuel with
  | O => OutOfFuel
  | S fuel' =>
      if i <? len v1 then
        e ← Value_Index v1 i;
        if v2 e then Ret (true, e) else Find_loop fuel' v1 v2 (i + 1)
      else Ret (false, None)
  end.

Definition Find (i f : Value pred) : outcome (bool * iface) :=
  v1 ← reflectSlice i;
  v2 ← reflectFunc f;
  Find_loop (S (length (elems v1))) v1 v2 0.

(** The two reverse scans, [for i := v1.Len() - 1; i > 0; i-- { ... }].
    Next to the result they return a ghost log: the indices whose element
    was handed to the predicate, latest first. *)
Fixpoint IndexLast_loop (fuel : nat) (v1 : slice iface) (v2 : pred) (i : Z)
    (tested : list Z) : outcome Z * list Z :=
  match fuel with
  | O => (OutOfFuel, tested)
  | S fuel' =>
      if i >? 0 then
        match Value_Index v1 i with
        | Ret e =>
            if v2 e then (Ret i, i :: tested)
            else IndexLast_loop fuel' v1 v2 (i - 1) (i :: tested)
        | Panic msg => (Panic msg, tested)
        | OutOfFuel => (OutOfFuel, tested)
        end
      else (Ret (-1), tested)
  end.

Definition IndexLast_run (i f : Value pred) : outcome Z * list Z :=
  match reflectSlice i with
  | Ret v1 =>
      match reflectFunc f with
      | Ret v2 => IndexLast_loop (S (length (elems v1))) v1 v2 (len v1 - 1) []
      | Panic msg => (Panic msg, [])
      | OutOfFuel => (OutOfFuel, [])
      end
  | Panic msg => (Panic msg, [])
  | OutOfFuel => (OutOfFuel, [])
  end.

Definition IndexLast (i f : Value pred) : outcome Z := fst (IndexLast_run i f).
Definition IndexLast_tested (i f : Value pred) : list Z := snd (IndexLast_run i f).

Fixpoint FindLast_loop (fuel : nat) (v1 : slice iface) (v2 : pred) (i : Z)
    (tested : list Z) : outcome (bool * iface) * list Z :=
  match fuel with
  | O => (OutOfFuel, tested)
  | S fuel' =>
      if i >? 0 then
        match Value_Index v1 i with
        | Ret e =>
            if v2 e then (Ret (true, e), i :: tested)
            else FindLast_loop fuel' v1 v2 (i - 1) (i :: tested)
        | Panic msg => (Panic msg, tested)
        | OutOfFuel => (OutOfFuel, tested)
        end
      else (Ret (false, None), tested)
  end.

Definition FindLast_run (i f : Value pred) : outcome (bool * iface) * list Z :=
  match reflectSlice i with
  | Ret v1 =>
      match reflectFunc f with
      | Ret v2 => FindLast_loop (S (length (elems v1))) v1 v2 (len v1 - 1) []
      | Panic msg => (Panic msg, [])
      | OutOfFuel => (OutOfFuel, [])
      end
  | Panic msg => (Panic msg, [])
  | OutOfFuel => (OutOfFuel, [])
  end.

Definition FindLast (i f : Value pred) : outcome (bool * iface) := fst (FindLast_run i f).
Definition FindLast_tested (i f : Value pred) : list Z := snd (FindLast_run i f).

(** [Foreach]: the function is called for its effect; the model gives it the
    state [St] it acts on.
    [for i := 0; i < v1.Len(); i++ { v2.Call([]reflect.Value{v1.Index(i)}) }] *)
Fixpoint Foreach_loop {St : Type} (fuel : nat) (v1 : slice iface)
    (v2 : iface -> St -> St) (i : Z) (st : St) : outcome St :=
  match fuel with
  | O => OutOfFuel
  | S fuel' =>
      if i <? len v1 then
        e ← Value_Index v1 i;
        Foreach_loop fuel' v1 v2 (i + 1) (v2 e st)
      else Ret st
  end.

Definition Foreach {St : Type} (i f : Value (iface -> St -> St)) (st : St) : outcome St :=
  v1 ← reflectSlice i;
  v2 ← reflectFunc f;
  Foreach_loop (S (length (elems v1))) v1 v2 0 st.

(** [Map] of the package (the name [Map] is the reflect kind above).
    [result := make([]interface{}, v1.Len());
     for i := 0; i < v1.Len(); i++ { result[i] = v2.Call(...)[0].Interface() }] *)
Fixpoint SliceMap_loop (fuel : nat) (v1 : slice iface) (v2 : iface -> iface) (i : Z)
    (result : slice iface) : outcome (slice iface) :=
  match fuel with
  | O => OutOfFuel
  | S fuel' =>
      if i <? len v1 then
        e ← Value_Index v1 i;
        result' ← store result i (v2 e);
        SliceMap_loop fuel' v1 v2 (i + 1) result'
      else Ret result
  end.

Definition SliceMap (i f : Value (iface -> iface)) : outcome (slice iface) :=
  v1 ← reflectSlice i;
  v2 ← reflectFunc f;
  let result := make None (len v1) in
  SliceMap_loop (S (length (elems v1))) v1 v2 0 result.

(** A sequence argument as the callers pass it: the slice itself or a
    pointer to it; likewise for the function. *)
Definition arg_slice {F} (by_pointer : bool) (s : slice iface) : Value F :=
  if by_pointer then VPtr (VSlice s) else VSlice s.

Definition arg_func {F} (by_pointer : bool) (f : F) : Value F :=
  if by_pointer then VPtr (VFunc f) else VFunc f.

End Ops.

Arguments VSlice {E F} s.
Arguments VFunc {E F} f.
Arguments VPtr {E F} elem.
Arguments VOther {E F} k.
Arguments reflectSlice {E F} i.
Arguments reflectFunc {E F} f.
Arguments Value_Index {E} v i.
Arguments ToList {E F} s.
Arguments ToSlice {E} l.
Arguments Exist {E} i f.
Arguments Filter {E} i f.
Arguments Index {E} i f.
Arguments Find {E} i f.
Arguments IndexLast {E} i f.
Arguments IndexLast_tested {E} i f.
Arguments FindLast {E} i f.
Arguments FindLast_tested {E} i f.
Arguments Foreach {E St} i f st.
Arguments SliceMap {E} i f.
Arguments arg_slice {E F} by_pointer s.
Arguments arg_func {E F} by_pointer f.

End Slice.

(** ** Package collection *)

Module Collection.

Section SetOps.

(** The elements are Go values usable as map keys whose [==] is reflexive
    (hashable dynamic types; a floating-point NaN is not such a key). *)
Context `{Countable K}.

(** The order in which [range] walks a map is unspecified: any enumeration
    of the keys, each once. *)
Variable range_order : gmap K bool -> list K.
Hypothesis range_order_perm : forall m, range_order m ≡ₚ (map_to_list m).*1.

(** [type baseSet struct { elements map[interface{}]bool }] *)
Record baseSet : Type := mkBaseSet { elements : gmap K bool }.

(** The interface type [Set]: [None] is the nil interface. *)
Definition GoSet : Type := option baseSet.

Definition Size (s : baseSet) : Z := Z.of_nat (size (elements s)).


(** [_, ok := s.elements[v]; return ok] *)
Definition Contains (s : baseSet) (v : K) : bool :=
  match elements s !! v with
  | Some _ => true
  | None => false
  end.

(** [_, ok := s.elements[v]; s.elements[v] = true; return ok] *)
Definition Add (s : baseSet) (v : K) : bool * baseSet :=
  let ok := Contains s v in
  (ok, mkBaseSet (<[v := true]> (elements s))).

Definition Remove (s : baseSet) (v : K) : bool * baseSet :=
  let ok := Contains s v in
  if ok then (ok, mkBaseSet (delete v (elements s))) else (ok, s).


(** [for k := range s.elements { f(k) }]; the callback acts on a state. *)
Definition Foreach {St : Type} (s : baseSet) (f : K -> St -> St) (st : St) : St :=
  foldl (fun st k => f k st) st (range_order (elements s)).

(** [NewSet(elements...)] *)
Definition NewSet (els : list K) : baseSet :=
  foldl (fun set element => snd (Add set element)) (mkBaseSet ∅) els.

(** [s1.Foreach(func(i) { s0.Add(i) })].  When [s1] is the receiver itself
    the callback only overwrites keys the map already has, so iterating the
    map that is being written visits the same keys as here. *)
Definition Union (s0 : baseSet) (s1 : GoSet) : baseSet :=
  match s1 with
  | None => s0
  | Some s1 => Foreach s1 (fun i s0 => snd (Add s0 i)) s0
  end.

(** [for k := range s.elements { if !s1.Contains(k) { delete(s.elements, k) } }] *)
Definition Intersect (s : baseSet) (s1 : GoSet) : baseSet :=
  match s1 with
  | None => s
  | Some s1 =>
      foldl (fun s k => if negb (Contains s1 k) then mkBaseSet (delete k (elements s)) else s)
            s (range_order (elements s))
  end.

Definition Subtract (s : baseSet) (s1 : GoSet) : baseSet :=
  match s1 with
  | None => s
  | Some s1 => Foreach s1 (fun i s => snd (Remove s i)) s
  end.

(** [for k := range ... { if !s1.Contains(k) { return false } }; return true] *)
Fixpoint all_contained (ks : list K) (s1 : baseSet) : bool :=
  match ks with
  | [] => true
  | k :: ks' => if negb (Contains s1 k) then false else all_contained ks' s1
  end.


Definition IsEqual (s0 : baseSet) (s1 : GoSet) : bool :=
  match s1 with
  | None => false
  | Some s1 =>
      if negb (Size s0 =? Size s1) then false
      else all_contained (range_order (elements s0)) s1
  end.


(** [values := make([]interface{}, s.Size()); i := 0;
     for k := range s.elements { values[i] = k; i++ }] *)
Fixpoint ToSlice_loop (ks : list K) (values : Slice.slice (option K)) (i : Z)
    : outcome (Slice.slice (option K)) :=
  match ks with
  | [] => Ret values
  | k :: ks' =>
      values' ← Slice.store K values i (Some k);
      ToSlice_loop ks' values' (i + 1)
  end.

Definition ToSlice (s : baseSet) : outcome (Slice.slice (option K)) :=
  let values := Slice.make None (Size s) in
  ToSlice_loop (range_order (elements s)) values 0.

(** [result := NewSet(); for k := range s.elements { result.Add(f(k)) }] *)
Definition Map (s : baseSet) (f : K -> K) : baseSet :=
  foldl (fun result k => snd (Add result (f k))) (NewSet []) (range_order (elements s)).

(** [result := NewSet(); for k := range s.elements { if f(k) { result.Add(k) } }] *)
Definition Filter (s : baseSet) (f : K -> bool) : baseSet :=
  foldl (fun result k => if f k then snd (Add result k) else result)
        (NewSet []) (range_order (elements s)).

End SetOps.

(** One admissible iteration order: the keys as the map lists them. *)
Definition listed_order `{Countable K} (m : gmap K bool) : list K := (map_to_list m).*1.

End Collection.

(** ** Package errors *)

Module Errors.

(** [const DefaultErrCode = -1] *)
Definition DefaultErrCode : Z := -1.

(** [type baseError struct { message, stack, context string; code int; inner error }]
    and the values of the built-in interface [error]: a [*baseError] (the one
    implementation of [Error]), a [runtime.Error], or any other error, the
    latter two known by the text of their [Error()]. *)
Inductive baseError : Type :=
  mkBaseError (message stack context : string) (code : Z) (inner : option error)
with error : Type :=
| IsError (e : baseError)
| RuntimeError (text : string)
| OtherError (text : string).

(** What [Message] can be handed as an [interface{}]. *)
Inductive dynamic : Type :=
| DynError (err : error)
| DynOther.

(** The methods of [*baseError]; [Message_of] is the method [Message()], named
    apart from the package function [Message] below, and [Error_of] is the
    method [Error()] of the built-in interface. *)
Definition Message_of (e : baseError) : string := let 'mkBaseError m _ _ _ _ := e in m.
Definition Stack (e : baseError) : string := let 'mkBaseError _ s _ _ _ := e in s.
Definition Context (e : baseError) : string := let 'mkBaseError _ _ c _ _ := e in c.
Definition Code (e : baseError) : Z := let 'mkBaseError _ _ _ c _ := e in c.
Definition Inner (e : baseError) : option error := let 'mkBaseError _ _ _ _ i := e in i.

(** [e.code = code]; the receiver after the call. *)
Definition SetCode (e : baseError) (code : Z) : baseError :=
  let 'mkBaseError message stack context _ inner := e in
  mkBaseError message stack context code inner.

(** [strings.Join] *)
Fixpoint Join (elems : list string) (sep : string) : string :=
  match elems with
  | [] => ""
  | [a] => a
  | a :: rest => a +:+ sep +:+ Join rest sep
  end.

(** [fillErrorInfo] below a non-nil [err]; the state is [(errLines, origStack)]. *)
Fixpoint fillErrorInfo_at (err : error) (st : list string * string) : list string * string :=
  match err with
  | IsError e =>
      let st := (st.1 ++ [Message_of e], Stack e) in
      match Inner e with
      | None => st
      | Some inner => fillErrorInfo_at inner st
      end
  | RuntimeError text => (st.1 ++ [text], st.2)
  | OtherError text => (st.1 ++ [text], st.2)
  end.

Definition fillErrorInfo (err : option error) (st : list string * string)
    : list string * string :=
  match err with
  | None => st
  | Some err => fillErrorInfo_at err st
  end.

Definition newline : string := String (ascii_of_nat 10) EmptyString.

Definition DefaultError (e : baseError) : string :=
  let errLines := ["ERROR:"] in
  let origStack := "" in
  let '(errLines, origStack) := fillErrorInfo (Some (IsError e)) (errLines, origStack) in
  let errLines := errLines ++ [""] in
  let errLines := errLines ++ ["ORIGINAL STACK TRACE:"] in
  let errLines := errLines ++ [origStack] in
  Join errLines newline.

(** The method [Error()] of the built-in interface. *)
Definition Error_of (err : error) : string :=
  match err with
  | IsError e => DefaultError e
  | RuntimeError text => text
  | OtherError text => text
  end.

(** The loop of [Message]: [for err != nil { ret = append(ret, err.Message()); ... }] *)
Fixpoint Message_loop (err : baseError) (ret : list string) : list string :=
  let ret := ret ++ [Message_of err] in
  match Inner err with
  | None => ret
  | Some innerErr =>
      match innerErr with
      | IsError err' => Message_loop err' ret
      | _ => ret ++ [Error_of innerErr]
      end
  end.

Definition Message (err : dynamic) : string :=
  match err with
  | DynError (IsError e) => Join (Message_loop e []) " "
  | DynError (RuntimeError text) => text
  | _ => "Passed a non-error to Message"
  end.

(** *** Stack capture *)

Definition bytes : Type := list ascii.

Definition blen (b : bytes) : Z := Z.of_nat (length b).

(** [b[lo:hi]] *)
Definition subslice (b : bytes) (lo hi : Z) : bytes :=
  take (Z.to_nat (hi - lo)) (drop (Z.to_nat lo) b).

(** [bytes.IndexByte] *)
Fixpoint IndexByte (b : bytes) (c : ascii) : Z :=
  match b with
  | [] => -1
  | x :: b' =>
      if Ascii.eqb x c then 0
      else let r := IndexByte b' c in if r =? -1 then -1 else r + 1
  end.

Definition nl : ascii := ascii_of_nat 10.

Definition indexNewline (b : bytes) (start : Z) : Z :=
  if start >=? blen b then blen b
  else
    let searchBuf := subslice b start (blen b) in
    let index := IndexByte searchBuf nl in
    if index =? -1 then blen b else start + index.

(** [runtime.Stack(buf, false)] with [len(buf) = size]: the dump, cut to the
    buffer; the loop doubles the buffer until the dump fits with room left. *)
Fixpoint read_stack (fuel : nat) (dump : bytes) (size : Z) : outcome bytes :=
  match fuel with
  | O => OutOfFuel
  | S fuel' =>
      let buf := take (Z.to_nat size) dump in
      let n := blen buf in
      if n <? size then Ret (subslice buf 0 n)
      else read_stack fuel' dump (size * 2)
  end.

(** [for !isDone { index = indexNewline(buf, index+1); ... }]; returns [index]. *)
Fixpoint frames_loop (fuel : nat) (buf : bytes) (index lastIndex : Z) : outcome Z :=
  match fuel with
  | O => OutOfFuel
  | S fuel' =>
      let index := indexNewline buf (index + 1) in
      if index - lastIndex <=? 1 then Ret index
      else frames_loop fuel' buf index index
  end.

(** [dump] is the text [runtime.Stack] has for the calling goroutine. *)
Definition stackTrace (dump : bytes) (skip : Z) : outcome (string * string) :=
  buf ← read_stack (S (length dump)) dump 128;
  let index := indexNewline buf 0 in
  let strippedBuf := if negb (index =? -1) then subslice buf 0 index else [] in
  (* [for i := 0; i < skip; i++]: the body runs max(skip, 0) times *)
  let index :=
    Nat.iter (Z.to_nat skip)
      (fun index => let index := indexNewline buf (index + 1) in indexNewline buf (index + 1))
      index in
  let startIndex := index in
  let lastIndex := index in
  index ← frames_loop (S (length buf)) buf index lastIndex;
  let strippedBuf := strippedBuf ++ subslice buf startIndex index in
  Ret (String.string_of_list_ascii strippedBuf,
       String.string_of_list_ascii (subslice buf index (blen buf))).

Definition StackTrace (dump : bytes) : outcome (string * string) := stackTrace dump 3.

(** *** Constructors *)

Section Constructors.

(** [fmt.Sprintf] and the type of its variadic arguments. *)
Variable Arg : Type.
Variable Sprintf : string -> list Arg -> string.

Definition New (dump : bytes) (msg : string) : outcome baseError :=
  '(stack, context) ← StackTrace dump;
  Ret (mkBaseError msg stack context DefaultErrCode None).

Definition NewByCode (dump : bytes) (code : Z) (msg : string) : outcome baseError :=
  '(stack, context) ← StackTrace dump;
  Ret (mkBaseError msg stack context code None).

Definition Newf (dump : bytes) (format : string) (args : list Arg) : outcome baseError :=
  '(stack, context) ← StackTrace dump;
  Ret (mkBaseError (Sprintf format args) stack context DefaultErrCode None).

Definition NewfByCode (dump : bytes) (code : Z) (format : string) (args : list Arg)
    : outcome baseError :=
  '(stack, context) ← StackTrace dump;
  Ret (mkBaseError (Sprintf format args) stack context code None).

Definition Wrap (dump : bytes) (err : option error) (msg : string) : outcome baseError :=
  '(stack, context) ← StackTrace dump;
  Ret (mkBaseError msg stack context DefaultErrCode err).

Definition WrapByCode (dump : bytes) (code : Z) (err : option error) (msg : string)
    : outcome baseError :=
  '(stack, context) ← StackTrace dump;
  Ret (mkBaseError msg stack context code err).

Definition Wrapf (dump : bytes) (err : option error) (format : string) (args : list Arg)
    : outcome baseError :=
  '(stack, context) ← StackTrace dump;
  Ret (mkBaseError (Sprintf format args) stack context DefaultErrCode err).

Definition WrapfByCode (dump : bytes) (code : Z) (err : option error) (format : string)
    (args : list Arg) : outcome baseError :=
  '(stack, context) ← StackTrace dump;
  Ret (mkBaseError (Sprintf format args) stack context code err).

End Constructors.

End Errors.

(** * Properties *)

(** ** Package slice *)

Module SliceProofs.
Import Slice.

Section Facts.

Variable E : Type.

#[local] Abbreviation iface := (option E).
#[local] Abbreviation pred := (option E -> bool).

Implicit Types (v s : slice iface) (f g : pred) (l pre suf : list iface) (e x : iface).

Lemma reflectSlice_arg {F} (p : bool) s : reflectSlice (arg_slice (F := F) p s) = Ret s.
Proof. by destruct p. Qed.

Lemma reflectFunc_arg {F} (p : bool) (fn : F) : reflectFunc (E := E) (arg_func p fn) = Ret fn.
Proof. by destruct p. Qed.

Lemma in_range (i n : Z) : 0 <= i < n -> (0 <=? i) && (i <? n) = true.
Proof.
  intros [Hlo Hhi]. apply andb_true_intro. split; [by apply Z.leb_le | by apply Z.ltb_lt].
Qed.

Lemma Value_Index_lookup v (n : nat) e : elems v !! n = Some e -> Value_Index v (Z.of_nat n) = Ret e.
Proof.
  intros Hl. unfold Value_Index.
  pose proof (lookup_lt_Some _ _ _ Hl) as Hn.
  rewrite in_range by (unfold len; lia).
  by rewrite Nat2Z.id, Hl.
Qed.

Lemma store_in_range v (n : nat) x :
  (n < length (elems v))%nat -> store E v (Z.of_nat n) x = Ret (MkSlice (<[n := x]> (elems v))).
Proof.
  intros Hn. unfold store. rewrite in_range by (unfold len; lia). by rewrite Nat2Z.id.
Qed.

Lemma loop_guard_in v pre x suf :
  elems v = pre ++ x :: suf -> (Z.of_nat (length pre) <? len v) = true.
Proof.
  intros Hv. unfold len. rewrite Hv, length_app. simpl. apply Z.ltb_lt. lia.
Qed.

Lemma loop_guard_out v pre :
  elems v = pre ++ [] -> (Z.of_nat (length pre) <? len v) = false.
Proof.
  intros Hv. unfold len. rewrite Hv, length_app. simpl. apply Z.ltb_ge. lia.
Qed.

Lemma Value_Index_middle v pre x suf :
  elems v = pre ++ x :: suf -> Value_Index v (Z.of_nat (length pre)) = Ret x.
Proof.
  intros Hv. apply Value_Index_lookup. rewrite Hv. by apply list_lookup_middle.
Qed.

Lemma next_index pre x : Z.of_nat (length pre) + 1 = Z.of_nat (length (pre ++ [x])).
Proof. rewrite length_app. simpl. lia. Qed.

(** Entering one iteration of a forward loop at the element [x]. *)
Ltac forward_step Hv x :=
  simpl; rewrite (loop_guard_in _ _ _ _ Hv), (Value_Index_middle _ _ _ _ Hv); simpl;
  rewrite (next_index _ x).

Ltac forward_exit Hv := simpl; rewrite (loop_guard_out _ _ Hv).

Lemma split_next pre x suf : pre ++ x :: suf = (pre ++ [x]) ++ suf.
Proof. by rewrite <- app_assoc. Qed.

(** *** The forward loops compute the list functions *)

Lemma Exist_loop_spec v f suf : forall pre fuel,
  elems v = pre ++ suf -> (length suf < fuel)%nat ->
  Exist_loop E fuel v f (Z.of_nat (length pre)) = Ret (existsb f suf).
Proof.
  induction suf as [|x suf IH]; intros pre fuel Hv Hfuel;
    (destruct fuel as [|fuel]; [simpl in Hfuel; lia|]).
  - by forward_exit Hv.
  - forward_step Hv x. destruct (f x); [done|].
    apply IH; [by rewrite <- split_next | simpl in Hfuel; lia].
Qed.

Lemma Filter_loop_spec v f suf : forall pre fuel r,
  elems v = pre ++ suf -> (length suf < fuel)%nat ->
  Filter_loop E fuel v f (Z.of_nat (length pre)) (MkSlice r)
  = Ret (MkSlice (r ++ List.filter f suf)).
Proof.
  induction suf as [|x suf IH]; intros pre fuel r Hv Hfuel;
    (destruct fuel as [|fuel]; [simpl in Hfuel; lia|]).
  - forward_exit Hv. by rewrite app_nil_r.
  - forward_step Hv x. destruct (f x).
    + unfold append. simpl. rewrite IH; [|by rewrite <- split_next | simpl in Hfuel; lia].
      by rewrite <- app_assoc.
    + apply IH; [by rewrite <- split_next | simpl in Hfuel; lia].
Qed.

Lemma Find_loop_spec v f suf : forall pre fuel,
  elems v = pre ++ suf -> (length suf < fuel)%nat ->
  Find_loop E fuel v f (Z.of_nat (length pre))
  = Ret (match List.find f suf with Some e => (true, e) | None => (false, None) end).
Proof.
  induction suf as [|x suf IH]; intros pre fuel Hv Hfuel;
    (destruct fuel as [|fuel]; [simpl in Hfuel; lia|]).
  - by forward_exit Hv.
  - forward_step Hv x. destruct (f x); [done|].
    apply IH; [by rewrite <- split_next | simpl in Hfuel; lia].
Qed.

Lemma ToList_loop_spec v suf : forall pre fuel l,
  elems v = pre ++ suf -> (length suf < fuel)%nat ->
  ToList_loop E fuel v (Z.of_nat (length pre)) l = Ret (l ++ suf).
Proof.
  induction suf as [|x suf IH]; intros pre fuel l Hv Hfuel;
    (destruct fuel as [|fuel]; [simpl in Hfuel; lia|]).
  - forward_exit Hv. by rewrite app_nil_r.
  - forward_step Hv x. unfold PushBack.
    rewrite IH; [|by rewrite <- split_next | simpl in Hfuel; lia].
    by rewrite <- app_assoc.
Qed.

Lemma Exist_eq (ps pf : bool) s f :
  Exist (arg_slice ps s) (arg_func pf f) = Ret (existsb f (elems s)).
Proof.
  unfold Exist. rewrite reflectSlice_arg, reflectFunc_arg. unfold mbind, outcome_bind.
  apply (Exist_loop_spec s f (elems s) []); [done | lia].
Qed.

Lemma Filter_eq (ps pf : bool) s f :
  Filter (arg_slice ps s) (arg_func pf f) = Ret (MkSlice (List.filter f (elems s))).
Proof.
  unfold Filter. rewrite reflectSlice_arg, reflectFunc_arg. unfold mbind, outcome_bind.
  apply (Filter_loop_spec s f (elems s) [] _ []); [done | lia].
Qed.

Lemma Find_eq (ps pf : bool) s f :
  Find (arg_slice ps s) (arg_func pf f)
  = Ret (match List.find f (elems s) with Some e => (true, e) | None => (false, None) end).
Proof.
  unfold Find. rewrite reflectSlice_arg, reflectFunc_arg. unfold mbind, outcome_bind.
  apply (Find_loop_spec s f (elems s) []); [done | lia].
Qed.

Lemma ToList_eq {F} (ps : bool) s : ToList (arg_slice (F := F) ps s) = Ret (elems s).
Proof.
  unfold ToList. rewrite reflectSlice_arg. unfold mbind, outcome_bind.
  apply (ToList_loop_spec s (elems s) [] _ []); [done | lia].
Qed.

(** *** [ToSlice] fills the zeroed slice from the front *)

Lemma ToSlice_loop_spec rest : forall filled,
  ToSlice_loop E rest (MkSlice (filled ++ replicate (length rest) None))
               (Z.of_nat (length filled))
  = Ret (MkSlice (filled ++ rest)).
Proof.
  induction rest as [|value rest IH]; intros filled; simpl.
  - done.
  - rewrite store_in_range by (clear IH; simpl; rewrite length_app; simpl; lia).
    simpl. rewrite insert_app_r_alt by done. rewrite Nat.sub_diag. simpl.
    rewrite (next_index _ value), (split_next filled value rest), split_next. apply IH.
Qed.

Lemma ToSlice_eq l : ToSlice (Some l) = Ret (MkSlice l).
Proof.
  unfold ToSlice, make. rewrite Nat2Z.id. apply (ToSlice_loop_spec l []).
Qed.

(** *** Facts about the list functions the loops compute *)

Lemma filter_all_true f l : Forall (fun e => f e = true) (List.filter f l).
Proof.
  induction l as [|x l IH]; simpl; [constructor|].
  destruct (f x) eqn:Hx; [by constructor | done].
Qed.

Lemma filter_sublist f l : sublist (List.filter f l) l.
Proof.
  induction l as [|x l IH]; simpl; [constructor|].
  destruct (f x); by constructor.
Qed.

Lemma filter_none f l : Forall (fun e => f e = false) l -> List.filter f l = [].
Proof.
  induction 1 as [|x l Hx _ IH]; simpl; [done|]. by rewrite Hx.
Qed.

Lemma filter_partition f l :
  (length (List.filter f l) + length (List.filter (fun e => negb (f e)) l) = length l)%nat.
Proof.
  induction l as [|x l IH]; simpl; [done|].
  destruct (f x); simpl; lia.
Qed.

Lemma find_first f l e :
  List.find f l = Some e ->
  exists pre suf, l = pre ++ e :: suf /\ f e = true /\ Forall (fun x => f x = false) pre.
Proof.
  induction l as [|x l IH]; simpl; [done|].
  destruct (f x) eqn:Hx.
  - intros [= ->]. by exists [], l.
  - intros Hfind. destruct (IH Hfind) as (pre & suf & -> & He & Hpre).
    exists (x :: pre), suf. split_and!; [done | done | by constructor].
Qed.

Lemma find_existsb f l : existsb f l = match List.find f l with Some _ => true | None => false end.
Proof.
  induction l as [|x l IH]; simpl; [done|]. by destruct (f x).
Qed.

Lemma find_absent f l : Forall (fun e => f e = false) l -> List.find f l = None.
Proof.
  induction 1 as [|x l Hx _ IH]; simpl; [done|]. by rewrite Hx.
Qed.

(** *** The reverse scans *)

Lemma positive_index (n : nat) : (Z.of_nat (S n) >? 0) = true.
Proof. apply Z.gtb_lt. lia. Qed.

Lemma Value_Index_Ret_inv v i e :
  Value_Index v i = Ret e -> 0 <= i < len v /\ elems v !! Z.to_nat i = Some e.
Proof.
  unfold Value_Index.
  destruct (0 <=? i) eqn:H0; simpl; [|done].
  destruct (i <? len v) eqn:H1; [|done].
  destruct (elems v !! Z.to_nat i) as [e'|]; [|done].
  intros [= ->]. split; [lia | done].
Qed.

(** The element found by [FindLast] is the one at the index found by [IndexLast]. *)
Definition found_at v (r : outcome Z) : outcome (bool * iface) :=
  match r with
  | Ret z => if z =? -1 then Ret (false, None)
             else Ret (true, default None (elems v !! Z.to_nat z))
  | Panic msg => Panic msg
  | OutOfFuel => OutOfFuel
  end.

Lemma FindLast_loop_IndexLast_loop fuel v f : forall i tested,
  FindLast_loop E fuel v f i tested
  = (found_at v (IndexLast_loop E fuel v f i tested).1,
     (IndexLast_loop E fuel v f i tested).2).
Proof.
  induction fuel as [|fuel IH]; intros i tested; simpl; [done|].
  destruct (i >? 0) eqn:Hi; [|done].
  destruct (Value_Index v i) as [e|msg|] eqn:Hidx; [|done..].
  destruct (f e); [|apply IH]. simpl.
  apply Value_Index_Ret_inv in Hidx as [Hrange ->].
  destruct (i =? -1) eqn:Hm; [lia | done].
Qed.

Lemma FindLast_IndexLast (i fn : Value E pred) :
  FindLast i fn
  = match reflectSlice i with
    | Ret v1 => found_at v1 (IndexLast i fn)
    | Panic msg => Panic msg
    | OutOfFuel => OutOfFuel
    end
  /\ FindLast_tested i fn = IndexLast_tested i fn.
Proof.
  unfold FindLast, FindLast_tested, FindLast_run, IndexLast, IndexLast_tested, IndexLast_run.
  destruct (reflectSlice i) as [v1|msg|]; [|done..].
  destruct (reflectFunc fn) as [v2|msg|]; [|done..].
  by rewrite FindLast_loop_IndexLast_loop.
Qed.

Lemma IndexLast_loop_tested fuel v f : forall i tested,
  Forall (fun j => 0 < j) tested ->
  Forall (fun j => 0 < j) (IndexLast_loop E fuel v f i tested).2.
Proof.
  induction fuel as [|fuel IH]; intros i tested Htested; simpl; [done|].
  destruct (i >? 0) eqn:Hi; [|done].
  destruct (Value_Index v i) as [e|msg|]; [|done..].
  assert (Forall (fun j => 0 < j) (i :: tested)) by (constructor; [lia | done]).
  destruct (f e); [done | by apply IH].
Qed.

(** With no match above index 0 the scan visits [n], ..., [1] and gives up. *)
Lemma IndexLast_loop_no_match v f x t :
  elems v = x :: t -> Forall (fun e => f e = false) t ->
  forall (n fuel : nat) tested,
    (n <= length t)%nat -> (n < fuel)%nat ->
    IndexLast_loop E fuel v f (Z.of_nat n) tested
    = (Ret (-1), seqZ 1 (Z.of_nat n) ++ tested).
Proof.
  intros Hv Ht. induction n as [|n IH]; intros fuel tested Hn Hfuel;
    (destruct fuel as [|fuel]; [lia|]).
  - done.
  - cbn [IndexLast_loop].
    rewrite positive_index.
    destruct (lookup_lt_is_Some_2 t n) as [e He]; [lia|].
    rewrite (Value_Index_lookup v (S n) e) by (by rewrite Hv).
    rewrite (proj1 (Forall_forall _ _) Ht e) by (by eapply list_elem_of_lookup_2).
    replace (Z.of_nat (S n) - 1) with (Z.of_nat n) by lia.
    rewrite IH by lia.
    rewrite seqZ_S, <- app_assoc. simpl.
    by replace (1 + Z.of_nat n) with (Z.of_nat (S n)) by lia.
Qed.

(** The scan reads neither the element at index 0 nor the predicate on it. *)
Lemma IndexLast_loop_head_irrelevant f g x y t :
  (forall e, e ∈ t -> f e = g e) ->
  forall (n fuel : nat) tested,
    (n <= length t)%nat ->
    IndexLast_loop E fuel (MkSlice (x :: t)) f (Z.of_nat n) tested
    = IndexLast_loop E fuel (MkSlice (y :: t)) g (Z.of_nat n) tested.
Proof.
  intros Hfg. induction n as [|n IH]; intros fuel tested Hn;
    (destruct fuel as [|fuel]; [done|]).
  - done.
  - cbn [IndexLast_loop].
    rewrite positive_index.
    destruct (lookup_lt_is_Some_2 t n) as [e He]; [lia|].
    rewrite (Value_Index_lookup (MkSlice (x :: t)) (S n) e), (Value_Index_lookup (MkSlice (y :: t)) (S n) e)
      by done.
    rewrite <- (Hfg e) by (by eapply list_elem_of_lookup_2).
    replace (Z.of_nat (S n) - 1) with (Z.of_nat n) by lia.
    destruct (f e); [done | apply IH; lia].
Qed.

(** The scan returns: [-1], or an index in [1, n] whose element matches. *)
Lemma IndexLast_loop_returns v f :
  forall (n fuel : nat) tested,
    (n < length (elems v) \/ n = 0)%nat -> (n < fuel)%nat ->
    exists z, (IndexLast_loop E fuel v f (Z.of_nat n) tested).1 = Ret z /\
      (z = -1 \/ 0 < z <= Z.of_nat n /\
                 exists e, elems v !! Z.to_nat z = Some e /\ f e = true).
Proof.
  induction n as [|n IH]; intros fuel tested Hn Hfuel;
    (destruct fuel as [|fuel]; [lia|]).
  - exists (-1). by split; [|left].
  - cbn [IndexLast_loop].
    rewrite positive_index.
    destruct (lookup_lt_is_Some_2 (elems v) (S n)) as [e He]; [lia|].
    rewrite (Value_Index_lookup v (S n) e) by done.
    destruct (f e) eqn:Hfe.
    + exists (Z.of_nat (S n)). split; [done|]. right. split; [lia|].
      exists e. by rewrite Nat2Z.id.
    + replace (Z.of_nat (S n) - 1) with (Z.of_nat n) by lia.
      destruct (IH fuel (Z.of_nat (S n) :: tested)) as (z & Hz & Hres); [lia..|].
      exists z. split; [done|]. destruct Hres as [->|[Hrange Hex]]; [by left|].
      right. split; [lia | done].
Qed.

Lemma IndexLast_run_eq (ps pf : bool) s f :
  IndexLast_run E (arg_slice ps s) (arg_func pf f)
  = IndexLast_loop E (S (length (elems s))) s f (len s - 1) [].
Proof.
  unfold IndexLast_run. by rewrite reflectSlice_arg, reflectFunc_arg.
Qed.

Lemma last_index s x t : elems s = x :: t -> len s - 1 = Z.of_nat (length t).
Proof. intros Hs. unfold len. rewrite Hs. simpl. lia. Qed.

Lemma IndexLast_returns (ps pf : bool) s f :
  exists z, IndexLast (arg_slice ps s) (arg_func pf f) = Ret z /\
    (z = -1 \/ 0 < z < len s /\ exists e, elems s !! Z.to_nat z = Some e /\ f e = true).
Proof.
  unfold IndexLast. rewrite IndexLast_run_eq.
  destruct (elems s) as [|x t] eqn:Hs.
  - exists (-1). split; [|by left]. unfold len. by rewrite Hs.
  - rewrite (last_index s x t Hs).
    destruct (IndexLast_loop_returns s f (length t) (S (length (x :: t))) [])
      as (z & Hz & Hres); [rewrite Hs; simpl; lia | simpl; lia |].
    exists z. split; [done|]. destruct Hres as [->|[Hrange Hex]]; [by left|].
    right. rewrite Hs in Hex. split; [|done]. unfold len. rewrite Hs. simpl. lia.
Qed.

(** **** C1 *)

(** C1. The reverse scans of [IndexLast] and [FindLast] hand only elements at
    indices above 0 to the predicate; both always return; their result is
    the same whatever stands at index 0 and whatever the predicate answers
    on it; and when the element at index 0 is the only one that satisfies
    the predicate, [IndexLast] returns -1 and [FindLast] returns
    (false, nil), after testing the indices [len-1], ..., [1]. *)
Theorem reverse_scan_skips_index_zero (ps pf : bool) s f :
  Forall (fun j => 0 < j) (IndexLast_tested (arg_slice ps s) (arg_func pf f)) /\
  Forall (fun j => 0 < j) (FindLast_tested (arg_slice ps s) (arg_func pf f)) /\
  (exists z, IndexLast (arg_slice ps s) (arg_func pf f) = Ret z /\ (z = -1 \/ 0 < z < len s)) /\
  (forall x y t g, elems s = x :: t -> (forall e, e ∈ t -> f e = g e) ->
     IndexLast (arg_slice ps s) (arg_func pf f)
     = IndexLast (arg_slice ps (MkSlice (y :: t))) (arg_func pf g) /\
     FindLast (arg_slice ps s) (arg_func pf f)
     = FindLast (arg_slice ps (MkSlice (y :: t))) (arg_func pf g)) /\
  (forall x t, elems s = x :: t -> f x = true -> Forall (fun e => f e = false) t ->
     IndexLast (arg_slice ps s) (arg_func pf f) = Ret (-1) /\
     FindLast (arg_slice ps s) (arg_func pf f) = Ret (false, None) /\
     IndexLast_tested (arg_slice ps s) (arg_func pf f) = seqZ 1 (Z.of_nat (length t))).
Proof.
  assert (Hlog : Forall (fun j => 0 < j) (IndexLast_tested (arg_slice ps s) (arg_func pf f))).
  { unfold IndexLast_tested. rewrite IndexLast_run_eq. by apply IndexLast_loop_tested. }
  assert (Hhead : forall x y t g, elems s = x :: t -> (forall e, e ∈ t -> f e = g e) ->
     IndexLast_run E (arg_slice ps s) (arg_func pf f)
     = IndexLast_run E (arg_slice ps (MkSlice (y :: t))) (arg_func pf g)).
  { intros x y t g Hs Hfg. rewrite !IndexLast_run_eq.
    rewrite (last_index s x t Hs), (last_index (MkSlice (y :: t)) y t eq_refl), Hs.
    destruct s as [|l]; [done|]. simpl in Hs. subst l.
    by apply IndexLast_loop_head_irrelevant. }
  split_and!.
  - done.
  - by rewrite (proj2 (FindLast_IndexLast _ _)).
  - destruct (IndexLast_returns ps pf s f) as (z & Hz & Hres).
    exists z. split; [done|]. destruct Hres as [->|[Hrange _]]; [by left | by right].
  - intros x y t g Hs Hfg. pose proof (Hhead x y t g Hs Hfg) as Hrun.
    assert (HI : IndexLast (arg_slice ps s) (arg_func pf f)
                 = IndexLast (arg_slice ps (MkSlice (y :: t))) (arg_func pf g))
      by (unfold IndexLast; by rewrite Hrun).
    split; [done|].
    rewrite (proj1 (FindLast_IndexLast _ _)), (proj1 (FindLast_IndexLast (arg_slice ps (MkSlice (y :: t))) _)).
    rewrite !reflectSlice_arg, HI.
    destruct s as [|l]; [done|]. simpl in Hs. subst l.
    destruct (IndexLast_returns ps pf (MkSlice (y :: t)) g) as (z & -> & [->|[Hrange _]]);
      [done|]. unfold found_at.
    destruct (z =? -1); [done|].
    destruct (Z.to_nat z) as [|k] eqn:Hk; [lia | done].
  - intros x t Hs Hx Ht.
    assert (Hrun : IndexLast_run E (arg_slice ps s) (arg_func pf f)
                   = (Ret (-1), seqZ 1 (Z.of_nat (length t)))).
    { rewrite IndexLast_run_eq, (last_index s x t Hs).
      rewrite (IndexLast_loop_no_match s f x t Hs Ht) by (rewrite ?Hs; simpl; lia).
      by rewrite app_nil_r. }
    split_and!.
    + unfold IndexLast. by rewrite Hrun.
    + rewrite (proj1 (FindLast_IndexLast _ _)), reflectSlice_arg.
      unfold IndexLast. by rewrite Hrun.
    + unfold IndexLast_tested. by rewrite Hrun.
Qed.

(** **** C2 *)

(** C2. [Filter] returns a non-nil slice holding exactly the elements of the
    input that satisfy the predicate, in their original order; it is the
    empty slice when none matches; and the sizes of the results for [F] and
    for [not F] add up to the size of the input. *)
Theorem Filter_keeps_matching_in_order (ps pf : bool) s f :
  exists r, Filter (arg_slice ps s) (arg_func pf f) = Ret (MkSlice r) /\
    r = List.filter f (elems s) /\
    Forall (fun e => f e = true) r /\
    sublist r (elems s) /\
    (Forall (fun e => f e = false) (elems s) -> r = []) /\
    exists r', Filter (arg_slice ps s) (arg_func pf (fun e => negb (f e))) = Ret (MkSlice r') /\
      Z.of_nat (length r) + Z.of_nat (length r') = len s.
Proof.
  exists (List.filter f (elems s)). split_and!.
  - apply Filter_eq.
  - done.
  - apply filter_all_true.
  - apply filter_sublist.
  - apply filter_none.
  - exists (List.filter (fun e => negb (f e)) (elems s)). split; [apply Filter_eq|].
    unfold len. rewrite <- (filter_partition f (elems s)). lia.
Qed.

(** **** C3 *)

(** C3. [ToSlice(ToList(S))] returns the elements of [S] in the same order,
    and [ToSlice] of a nil or empty list returns the empty slice. *)
Theorem ToSlice_ToList_roundtrip (F : Type) (ps : bool) s :
  (ToList (arg_slice (F := F) ps s) ≫= fun l => ToSlice (Some l)) = Ret (MkSlice (elems s)) /\
  ToSlice (E := E) None = Ret (MkSlice []) /\
  ToSlice (E := E) (Some []) = Ret (MkSlice []).
Proof.
  split_and!; [|done..].
  rewrite ToList_eq. apply ToSlice_eq.
Qed.

(** **** C4 *)

(** C4. [Exist] returns true exactly when [Find] returns (true, _); the
    element [Find] returns is then the first one, in forward order, that
    satisfies the predicate; and with no such element [Find] returns
    (false, nil). *)
Theorem Exist_iff_Find (ps pf : bool) s f :
  exists b ok e,
    Exist (arg_slice ps s) (arg_func pf f) = Ret b /\
    Find (arg_slice ps s) (arg_func pf f) = Ret (ok, e) /\
    (b = true <-> ok = true) /\
    (ok = true ->
       exists pre suf, elems s = pre ++ e :: suf /\ f e = true /\
                       Forall (fun x => f x = false) pre) /\
    (Forall (fun x => f x = false) (elems s) -> ok = false /\ e = None).
Proof.
  rewrite Exist_eq, Find_eq, find_existsb.
  destruct (List.find f (elems s)) as [e|] eqn:Hfind.
  - exists true, true, e. split_and!; [done..| |].
    + intros _. by apply find_first.
    + intros Hnone. by rewrite (find_absent _ _ Hnone) in Hfind.
  - exists false, false, None. by split_and!.
Qed.

(** *** Further properties of the package *)

Implicit Types (h : iface -> iface).

Lemma SliceMap_loop_spec v h suf : forall pre fuel,
  elems v = pre ++ suf -> (length suf < fuel)%nat ->
  SliceMap_loop E fuel v h (Z.of_nat (length pre))
    (MkSlice ((h <$> pre) ++ replicate (length suf) None))
  = Ret (MkSlice (h <$> (pre ++ suf))).
Proof.
  induction suf as [|x suf IH]; intros pre fuel Hv Hfuel;
    (destruct fuel as [|fuel]; [simpl in Hfuel; lia|]).
  - forward_exit Hv. by rewrite !app_nil_r.
  - forward_step Hv x.
    rewrite store_in_range
      by (clear IH; simpl; rewrite length_app, length_fmap; simpl; lia).
    cbn [mbind outcome_bind elems].
    rewrite insert_app_r_alt by (by rewrite length_fmap).
    rewrite length_fmap, Nat.sub_diag. cbn [list_insert].
    specialize (IH (pre ++ [x]) fuel).
    rewrite fmap_app, <- !app_assoc in IH. simpl in IH.
    apply IH; [done | simpl in Hfuel; lia].
Qed.

Lemma SliceMap_eq (ps pf : bool) s h :
  SliceMap (arg_slice ps s) (arg_func pf h) = Ret (MkSlice (h <$> elems s)).
Proof.
  unfold SliceMap. rewrite reflectSlice_arg, reflectFunc_arg. unfold mbind, outcome_bind.
  unfold make, len. rewrite Nat2Z.id.
  apply (SliceMap_loop_spec s h (elems s) []); [done | lia].
Qed.

(** X1. [Map] returns a non-nil slice as long as the input whose element at
    each index is the function applied to the input's element there. *)
Theorem SliceMap_applies_pointwise (ps pf : bool) s h :
  exists r, SliceMap (arg_slice ps s) (arg_func pf h) = Ret (MkSlice r) /\
    Z.of_nat (length r) = len s /\
    (forall (i : nat) e, elems s !! i = Some e -> r !! i = Some (h e)) /\
    r = h <$> elems s.
Proof.
  exists (h <$> elems s). split_and!.
  - apply SliceMap_eq.
  - unfold len. by rewrite length_fmap.
  - intros i e He. by rewrite list_lookup_fmap, He.
  - done.
Qed.

Lemma Foreach_loop_spec {St : Type} v (c : iface -> St -> St) suf : forall pre fuel st,
  elems v = pre ++ suf -> (length suf < fuel)%nat ->
  Foreach_loop E fuel v c (Z.of_nat (length pre)) st
  = Ret (foldl (fun st e => c e st) st suf).
Proof.
  induction suf as [|x suf IH]; intros pre fuel st Hv Hfuel;
    (destruct fuel as [|fuel]; [simpl in Hfuel; lia|]).
  - by forward_exit Hv.
  - forward_step Hv x.
    apply IH; [by rewrite <- split_next | simpl in Hfuel; lia].
Qed.

(** X2. [Foreach] calls the function once for each element, in index order:
    the state it leaves is the left fold of the function over the slice; a
    function that records its argument records the slice itself. *)
Theorem Foreach_visits_in_order {St : Type} (ps pf : bool) s
    (c : iface -> St -> St) (st : St) :
  Foreach (arg_slice ps s) (arg_func pf c) st
  = Ret (foldl (fun st e => c e st) st (elems s)) /\
  Foreach (arg_slice ps s) (arg_func pf (fun e seen => seen ++ [e])) []
  = Ret (elems s).
Proof.
  assert (Hrun : forall (T : Type) (c : iface -> T -> T) (st : T),
    Foreach (arg_slice ps s) (arg_func pf c) st
    = Ret (foldl (fun st e => c e st) st (elems s))).
  { intros T c' st'. unfold Foreach. rewrite reflectSlice_arg, reflectFunc_arg.
    unfold mbind, outcome_bind.
    apply (Foreach_loop_spec s c' (elems s) []); [done | lia]. }
  split; [apply Hrun|]. rewrite Hrun. f_equal.
  assert (Hacc : forall l acc, foldl (fun seen e => seen ++ [e]) acc l = acc ++ l).
  { induction l as [|x l IH]; intros acc; simpl; [by rewrite app_nil_r|].
    by rewrite IH, <- app_assoc. }
  apply (Hacc (elems s) []).
Qed.

(** The index of the first match at or after position [base], or -1. *)
Fixpoint first_match f l (base : Z) : Z :=
  match l with
  | [] => -1
  | x :: l' => if f x then base else first_match f l' (base + 1)
  end.

Lemma Index_loop_spec v f suf : forall pre fuel,
  elems v = pre ++ suf -> (length suf < fuel)%nat ->
  Index_loop E fuel v f (Z.of_nat (length pre)) = Ret (first_match f suf (Z.of_nat (length pre))).
Proof.
  induction suf as [|x suf IH]; intros pre fuel Hv Hfuel;
    (destruct fuel as [|fuel]; [simpl in Hfuel; lia|]).
  - by forward_exit Hv.
  - forward_step Hv x. destruct (f x); [done|].
    apply IH; [by rewrite <- split_next | simpl in Hfuel; lia].
Qed.

Lemma first_match_cases f l : forall base,
  (first_match f l base = -1 /\ List.find f l = None) \/
  (exists pre e suf, l = pre ++ e :: suf /\
     first_match f l base = base + Z.of_nat (length pre) /\
     List.find f l = Some e /\ f e = true /\ Forall (fun x => f x = false) pre).
Proof.
  induction l as [|x l IH]; intros base; simpl; [by left|].
  destruct (f x) eqn:Hx.
  - right. exists [], x, l. split_and!; [done | simpl; lia | done..].
  - destruct (IH (base + 1)) as [[Hm Hf]|(pre & e & suf & -> & Hm & Hf & He & Hpre)].
    + by left.
    + right. exists (x :: pre), e, suf.
      split_and!; [done | simpl; lia | done | done | by constructor].
Qed.

Lemma find_none_all f l : List.find f l = None -> Forall (fun e => f e = false) l.
Proof.
  induction l as [|x l IH]; simpl; [constructor|].
  destruct (f x) eqn:Hx; [done|]. intros Hf. constructor; [done | by apply IH].
Qed.

(** X3. [Index] returns the position of the first element that satisfies the
    predicate, and [Find] and [Exist] agree with it: either no element
    satisfies the predicate and the three return -1, (false, nil) and false,
    or the three return the position of the first match, (true, that
    element) and true. *)
Theorem Index_first_match (ps pf : bool) s f :
  (Forall (fun e => f e = false) (elems s) /\
   Index (arg_slice ps s) (arg_func pf f) = Ret (-1) /\
   Find (arg_slice ps s) (arg_func pf f) = Ret (false, None) /\
   Exist (arg_slice ps s) (arg_func pf f) = Ret false) \/
  (exists pre e suf,
     elems s = pre ++ e :: suf /\ f e = true /\ Forall (fun x => f x = false) pre /\
     Index (arg_slice ps s) (arg_func pf f) = Ret (Z.of_nat (length pre)) /\
     Find (arg_slice ps s) (arg_func pf f) = Ret (true, e) /\
     Exist (arg_slice ps s) (arg_func pf f) = Ret true).
Proof.
  assert (HI : Index (arg_slice ps s) (arg_func pf f) = Ret (first_match f (elems s) 0)).
  { unfold Index. rewrite reflectSlice_arg, reflectFunc_arg. unfold mbind, outcome_bind.
    apply (Index_loop_spec s f (elems s) []); [done | lia]. }
  rewrite HI, Find_eq, Exist_eq, find_existsb.
  destruct (first_match_cases f (elems s) 0)
    as [[-> Hf]|(pre & e & suf & Hs & -> & Hf & He & Hpre)]; rewrite Hf.
  - left. split_and!; [by apply find_none_all | done..].
  - right. exists pre, e, suf. by split_and!.
Qed.

(** A match at index [j], with none above it up to [j + d], is what the scan
    started at [j + d] returns. *)
Lemma IndexLast_loop_hit v f (j : nat) e :
  elems v !! j = Some e -> f e = true -> (1 <= j)%nat ->
  forall (d fuel : nat) tested,
    (j + d < length (elems v))%nat -> (j + d < fuel)%nat ->
    (forall (j' : nat) e', (j < j' <= j + d)%nat -> elems v !! j' = Some e' -> f e' = false) ->
    (IndexLast_loop E fuel v f (Z.of_nat (j + d)) tested).1 = Ret (Z.of_nat j).
Proof.
  intros He Hfe Hj. induction d as [|d IH]; intros fuel tested Hlen Hfuel Habove;
    (destruct fuel as [|fuel]; [lia|]).
  - rewrite Nat.add_0_r. destruct j as [|j]; [lia|].
    cbn [IndexLast_loop]. rewrite positive_index, (Value_Index_lookup v (S j) e) by done.
    by rewrite Hfe.
  - replace (j + S d)%nat with (S (j + d)) in * by lia.
    cbn [IndexLast_loop]. rewrite positive_index.
    destruct (lookup_lt_is_Some_2 (elems v) (S (j + d))) as [e' He']; [lia|].
    rewrite (Value_Index_lookup v (S (j + d)) e') by done.
    rewrite (Habove (S (j + d)) e') by (done || lia).
    replace (Z.of_nat (S (j + d)) - 1) with (Z.of_nat (j + d)) by lia.
    apply IH; [lia | lia |].
    intros j' e'' Hj' He''. apply (Habove j' e''); [lia | done].
Qed.

(** X4. The reverse scans find the last match among the indices above 0:
    when index [j >= 1] holds the last element that satisfies the predicate,
    [IndexLast] returns [j] and [FindLast] returns (true, that element);
    when no element above index 0 satisfies it, they return -1 and
    (false, nil); and an index [IndexLast] returns is never 0 and always
    holds an element that satisfies the predicate. *)
Theorem reverse_scan_finds_last_match (ps pf : bool) s f :
  (forall (j : nat) e,
     (1 <= j)%nat -> elems s !! j = Some e -> f e = true ->
     (forall (j' : nat) e', (j < j')%nat -> elems s !! j' = Some e' -> f e' = false) ->
     IndexLast (arg_slice ps s) (arg_func pf f) = Ret (Z.of_nat j) /\
     FindLast (arg_slice ps s) (arg_func pf f) = Ret (true, e)) /\
  ((forall (j : nat) e, (1 <= j)%nat -> elems s !! j = Some e -> f e = false) ->
     IndexLast (arg_slice ps s) (arg_func pf f) = Ret (-1) /\
     FindLast (arg_slice ps s) (arg_func pf f) = Ret (false, None)) /\
  (forall z, IndexLast (arg_slice ps s) (arg_func pf f) = Ret z -> z <> -1 ->
     0 < z /\ exists e, elems s !! Z.to_nat z = Some e /\ f e = true).
Proof.
  split_and!.
  - intros j e Hj He Hfe Habove.
    pose proof (lookup_lt_Some _ _ _ He) as Hlt.
    destruct (elems s) as [|x t] eqn:Hs; [simpl in Hlt; lia|]. simpl in Hlt.
    assert (HI : IndexLast (arg_slice ps s) (arg_func pf f) = Ret (Z.of_nat j)).
    { unfold IndexLast. rewrite IndexLast_run_eq, (last_index s x t Hs).
      replace (length t) with (j + (length t - j))%nat by lia.
      apply (IndexLast_loop_hit s f j e); rewrite ?Hs; simpl; try done; try lia.
      intros j' e' Hj'. by apply Habove; lia. }
    split; [done|].
    rewrite (proj1 (FindLast_IndexLast _ _)), reflectSlice_arg, HI. unfold found_at.
    destruct (Z.of_nat j =? -1) eqn:Hm; [lia|]. by rewrite Nat2Z.id, Hs, He.
  - intros Hnone.
    assert (HI : IndexLast (arg_slice ps s) (arg_func pf f) = Ret (-1)).
    { destruct (IndexLast_returns ps pf s f) as (z & Hz & [->|[Hrange (e & He & Hfe)]]); [done|].
      rewrite (Hnone (Z.to_nat z) e) in Hfe; [done | lia | done]. }
    split; [done|].
    by rewrite (proj1 (FindLast_IndexLast _ _)), reflectSlice_arg, HI.
  - intros z Hz Hne.
    destruct (IndexLast_returns ps pf s f) as (z' & Hz' & Hres).
    rewrite Hz in Hz'. injection Hz' as <-.
    destruct Hres as [->|[Hrange Hex]]; [done|]. split; [lia | done].
Qed.

Definition not_slice_message (k : Kind) : string :=
  "utils/slice: argument type is not slice, " +:+ Kind_String k +:+ ".".

Definition not_func_message (k : Kind) : string :=
  "utils/slice: argument type is not func, " +:+ Kind_String k +:+ ".".

(** After at most one pointer the argument must be a slice. *)
Lemma reflectSlice_refuses {F} (i : Value E F) :
  (forall s, i <> VSlice s /\ i <> VPtr (VSlice s)) ->
  exists k, k <> Slice /\ reflectSlice i = Panic (not_slice_message k) /\
            k = Value_Kind E (match i with VPtr p => p | _ => i end).
Proof.
  intros Hshape.
  destruct i as [s| fn | [s|fn|p|k] | k]; try (by destruct (Hshape s) as [? ?]);
    eexists; (split_and!; [|reflexivity|reflexivity]); done.
Qed.

Lemma reflectFunc_refuses {F} (fv : Value E F) :
  (forall fn, fv <> VFunc fn /\ fv <> VPtr (VFunc fn)) ->
  exists k, k <> Func /\ reflectFunc fv = Panic (not_func_message k).
Proof.
  intros Hshape.
  destruct fv as [s| fn | [s|fn|p|k] | k]; try (by destruct (Hshape fn) as [? ?]);
    eexists; (split; [|reflexivity]); done.
Qed.

(** X5. An argument that is neither a slice nor a pointer to a slice (a
    pointer to a pointer to a slice included) makes every operation panic
    with the message that names its kind, whatever the function argument is;
    and with a proper slice, a function argument that is neither a func nor
    a pointer to one makes the operations that take one panic with the
    message for functions. *)
Theorem wrong_shape_panics (i fv : Value E pred) :
  ((forall s, i <> VSlice s /\ i <> VPtr (VSlice s)) ->
   exists k, k <> Slice /\
     k = Value_Kind E (match i with VPtr p => p | _ => i end) /\
     ToList i = Panic (not_slice_message k) /\
     Exist i fv = Panic (not_slice_message k) /\
     Filter i fv = Panic (not_slice_message k) /\
     Index i fv = Panic (not_slice_message k) /\
     IndexLast i fv = Panic (not_slice_message k) /\
     Find i fv = Panic (not_slice_message k) /\
     FindLast i fv = Panic (not_slice_message k)) /\
  (forall (ps : bool) s,
     (forall fn, fv <> VFunc fn /\ fv <> VPtr (VFunc fn)) ->
     exists k, k <> Func /\
       Exist (arg_slice ps s) fv = Panic (not_func_message k) /\
       Filter (arg_slice ps s) fv = Panic (not_func_message k) /\
       Index (arg_slice ps s) fv = Panic (not_func_message k) /\
       IndexLast (arg_slice ps s) fv = Panic (not_func_message k) /\
       Find (arg_slice ps s) fv = Panic (not_func_message k) /\
       FindLast (arg_slice ps s) fv = Panic (not_func_message k)).
Proof.
  split.
  - intros Hshape. destruct (reflectSlice_refuses i Hshape) as (k & Hk & Hpanic & Hkind).
    exists k. unfold ToList, Exist, Filter, Index, Find, IndexLast, FindLast,
      IndexLast_run, FindLast_run.
    rewrite Hpanic. by split_and!.
  - intros ps s Hshape. destruct (reflectFunc_refuses fv Hshape) as (k & Hk & Hpanic).
    exists k. unfold Exist, Filter, Index, Find, IndexLast, FindLast,
      IndexLast_run, FindLast_run.
    rewrite reflectSlice_arg, Hpanic. by split_and!.
Qed.

Lemma AsList_eq l : AsList E l = l.
Proof.
  unfold AsList, list_New.
  assert (Hacc : forall xs acc, foldl (PushBack E) acc xs = acc ++ xs).
  { induction xs as [|x xs IH]; intros acc; simpl; [by rewrite app_nil_r|].
    unfold PushBack at 2. by rewrite IH, <- app_assoc. }
  apply (Hacc l []).
Qed.

(** X6. [AsList] builds the list of its arguments in order: it is the list
    [ToList] builds from the slice of the same elements, and [ToSlice] turns
    it back into those elements. *)
Theorem AsList_ToSlice_roundtrip (F : Type) (ps : bool) l :
  ToList (arg_slice (F := F) ps (MkSlice l)) = Ret (AsList E l) /\
  ToSlice (Some (AsList E l)) = Ret (MkSlice l) /\
  length (AsList E l) = length l.
Proof.
  rewrite AsList_eq. split_and!; [apply ToList_eq | apply ToSlice_eq | done].
Qed.




End Facts.

(** *** The scenarios of the tests, and concrete instances *)

Definition divisible_by (d : Z) : pred Z :=
  fun e => match e with Some n => n mod d =? 0 | None => false end.

Definition ints (l : list Z) : slice (iface Z) := MkSlice (Some <$> l).

Example TestFilter :
  Filter (VSlice (ints [1; 2; 3; 4])) (VFunc (divisible_by 2)) = Ret (ints [2; 4]).
Proof. reflexivity. Qed.

Example TestFind :
  Find (VSlice (ints [1; 2; 3; 4; 6])) (VFunc (divisible_by 3)) = Ret (true, Some 3) /\
  Find (VSlice (ints [1; 2; 3; 4])) (VFunc (divisible_by 5)) = Ret (false, None).
Proof. split; reflexivity. Qed.

Example TestFindLast :
  FindLast (VSlice (ints [1; 2; 3; 4; 6])) (VFunc (divisible_by 3)) = Ret (true, Some 6) /\
  FindLast (VSlice (ints [1; 2; 3; 4])) (VFunc (divisible_by 5)) = Ret (false, None).
Proof. split; reflexivity. Qed.

Example TestExist :
  Exist (VSlice (ints [1; 2; 3; 4])) (VFunc (divisible_by 3)) = Ret true /\
  Exist (VSlice (ints [1; 2; 3; 4])) (VFunc (divisible_by 5)) = Ret false.
Proof. split; reflexivity. Qed.

Example not_a_slice :
  Filter (VOther Int) (VFunc (divisible_by 2))
  = Panic "utils/slice: argument type is not slice, int.".
Proof. reflexivity. Qed.

(** The only multiple of 3 in [3, 1, 2] stands at index 0. *)
Lemma reverse_scan_skips_index_zero_witness :
  IndexLast (VSlice (ints [3; 1; 2])) (VFunc (divisible_by 3)) = Ret (-1) /\
  FindLast (VSlice (ints [3; 1; 2])) (VFunc (divisible_by 3)) = Ret (false, None) /\
  IndexLast_tested (VSlice (ints [3; 1; 2])) (VFunc (divisible_by 3)) = [1; 2].
Proof.
  destruct (reverse_scan_skips_index_zero Z false false (ints [3; 1; 2]) (divisible_by 3))
    as (_ & _ & _ & _ & Honly).
  apply (Honly (Some 3) [Some 1; Some 2]).
  - reflexivity.
  - reflexivity.
  - repeat constructor.
Defined.

Lemma Filter_keeps_matching_in_order_witness :
  Filter (VSlice (ints [1; 3; 5])) (VFunc (divisible_by 2)) = Ret (MkSlice []).
Proof.
  destruct (Filter_keeps_matching_in_order Z false false (ints [1; 3; 5]) (divisible_by 2))
    as (r & Hr & _ & _ & _ & Hnone & _).
  rewrite Hnone in Hr; [exact Hr|].
  repeat constructor.
Defined.

Lemma Exist_iff_Find_witness :
  exists e, Find (VSlice (ints [1; 3; 5])) (VFunc (divisible_by 2)) = Ret (false, e) /\ e = None.
Proof.
  destruct (Exist_iff_Find Z false false (ints [1; 3; 5]) (divisible_by 2))
    as (b & ok & e & _ & Hfind & _ & _ & Hnone).
  destruct Hnone as [-> ->]; [repeat constructor|].
  exists None. split; [exact Hfind | reflexivity].
Defined.

Example TestMap :
  SliceMap (VSlice (ints [1; 2; 3; 4])) (VFunc (fun e => (fun n => n * 100) <$> e))
  = Ret (ints [100; 200; 300; 400]).
Proof. reflexivity. Qed.

Example TestForeach :
  Foreach (VSlice (ints [1; 2; 3; 4]))
          (VFunc (fun e sum => match e with Some n => sum + n | None => sum end)) 0
  = Ret 10.
Proof. reflexivity. Qed.

Lemma SliceMap_applies_pointwise_witness :
  exists r, SliceMap (VSlice (ints [1; 2])) (VFunc (fun e => (fun n => n * 100) <$> e))
            = Ret (MkSlice r) /\ r !! 1%nat = Some (Some 200).
Proof.
  destruct (SliceMap_applies_pointwise Z false false (ints [1; 2])
              (fun e => (fun n => n * 100) <$> e)) as (r & Hr & _ & Hat & _).
  exists r. split; [exact Hr|].
  apply (Hat 1%nat (Some 2)). reflexivity.
Defined.

(** In [1, 3, 2, 6, 5] the last multiple of 3 stands at index 3. *)
Lemma reverse_scan_finds_last_match_witness :
  IndexLast (VSlice (ints [1; 3; 2; 6; 5])) (VFunc (divisible_by 3)) = Ret 3 /\
  FindLast (VSlice (ints [1; 3; 2; 6; 5])) (VFunc (divisible_by 3)) = Ret (true, Some 6).
Proof.
  destruct (reverse_scan_finds_last_match Z false false (ints [1; 3; 2; 6; 5]) (divisible_by 3))
    as (Hlast & _ & _).
  apply (Hlast 3%nat (Some 6)).
  - lia.
  - reflexivity.
  - reflexivity.
  - intros j' e' Hj' He'.
    destruct j' as [|[|[|[|[|j']]]]]; try lia.
    + injection He' as <-. reflexivity.
    + discriminate He'.
Defined.

(** A slice behind two pointers is refused. *)
Lemma wrong_shape_panics_witness :
  Filter (VPtr (VPtr (VSlice (ints [1; 2])))) (VFunc (divisible_by 2))
  = Panic "utils/slice: argument type is not slice, ptr.".
Proof.
  destruct (wrong_shape_panics Z (VPtr (VPtr (VSlice (ints [1; 2])))) (VFunc (divisible_by 2)))
    as [Hslice _].
  destruct Hslice as (k & Hk & Hkind & _ & _ & Hfilter & _).
  - intros s. split; discriminate.
  - rewrite Hfilter, Hkind. reflexivity.
Defined.

End SliceProofs.


(** ** Package collection *)

Module CollectionProofs.
Import Collection.

Section Facts.

Context `{Countable K}.

Variable range_order : gmap K bool -> list K.
Hypothesis range_order_perm : forall m, range_order m ≡ₚ (map_to_list m).*1.

Implicit Types (s : baseSet (K := K)) (v w k : K) (ks : list K) (m : gmap K bool).

(** The members of a set: the keys of its map. *)
Definition members s : gset K := dom (elements s).

Lemma Contains_true s v : Contains s v = true <-> v ∈ members s.
Proof.
  unfold Contains, members. rewrite elem_of_dom.
  destruct (elements s !! v) as [b|] eqn:Hv.
  - split; [by eexists | done].
  - split; [done | by intros [b Hb]].
Qed.

Lemma Contains_false s v : Contains s v = false <-> v ∉ members s.
Proof.
  rewrite <- Contains_true. by destruct (Contains s v).
Qed.

Lemma Contains_members s v : Contains s v = bool_decide (v ∈ members s).
Proof.
  destruct (Contains s v) eqn:Hc; symmetry.
  - apply bool_decide_eq_true. by apply Contains_true.
  - apply bool_decide_eq_false. by apply Contains_false.
Qed.

Lemma Size_members s : Size s = Z.of_nat (size (members s)).
Proof. unfold Size, members. by rewrite size_dom. Qed.


(** *** Add *)

Lemma Add_members s v : members (Add s v).2 = {[v]} ∪ members s.
Proof. unfold Add, members. simpl. apply dom_insert_L. Qed.

(** *** Foreach with Add: Union *)



(** *** The membership loop of IsSubset and IsEqual *)






(** **** C5 *)


(** **** C6 *)


(** *** Union *)



(** *** Further properties of the package *)

Implicit Types (t u : baseSet (K := K)).





Lemma Remove_members s v : members (Remove s v).2 = members s ∖ {[v]}.
Proof.
  unfold Remove. destruct (Contains s v) eqn:Hc; simpl.
  - unfold members. simpl. apply dom_delete_L.
  - apply Contains_false in Hc. apply set_eq. intros w.
    rewrite elem_of_difference, elem_of_singleton. split; [|tauto].
    intros Hw. split; [done|]. by intros ->.
Qed.



Lemma Add_Size s v : Size (Add s v).2 = Size s + (if Contains s v then 0 else 1).
Proof.
  rewrite !Size_members, Add_members.
  destruct (Contains s v) eqn:Hc.
  - apply Contains_true in Hc.
    replace ({[v]} ∪ members s) with (members s); [lia|].
    apply set_eq. intros w. rewrite elem_of_union, elem_of_singleton.
    split; [tauto|]. by intros [->|].
  - apply Contains_false in Hc.
    rewrite size_union, size_singleton; [lia|].
    intros w Hw Hin. apply elem_of_singleton in Hw. by subst w.
Qed.

Lemma Remove_Size s v : Size (Remove s v).2 = Size s - (if Contains s v then 1 else 0).
Proof.
  rewrite !Size_members, Remove_members.
  destruct (Contains s v) eqn:Hc.
  - apply Contains_true in Hc.
    assert (Hsub : ({[v]} : gset K) ⊆ members s).
    { intros w Hw. apply elem_of_singleton in Hw. by subst w. }
    rewrite (size_difference _ _ Hsub), size_singleton.
    pose proof (subseteq_size _ _ Hsub) as Hle. rewrite size_singleton in Hle. lia.
  - apply Contains_false in Hc.
    replace (members s ∖ {[v]}) with (members s); [lia|].
    apply set_eq. intros w. rewrite elem_of_difference, elem_of_singleton.
    split; [|tauto]. intros Hw. split; [done|]. by intros ->.
Qed.

(** X8. [Remove(v)] returns true exactly when [v] was a member; afterwards
    [v] is not a member, every other value is a member exactly when it was,
    and the size went down by one when [v] was a member and is unchanged
    otherwise; [Add(v)] makes the size go up by one exactly when [v] was not
    a member. *)
Theorem Remove_reports_and_deletes s v :
  (Remove s v).1 = Contains s v /\
  Contains (Remove s v).2 v = false /\
  (forall w, w <> v -> Contains (Remove s v).2 w = Contains s w) /\
  Size (Remove s v).2 = Size s - (if Contains s v then 1 else 0) /\
  Size (Add s v).2 = Size s + (if Contains s v then 0 else 1).
Proof.
  split_and!.
  - unfold Remove. by destruct (Contains s v).
  - apply Contains_false. rewrite Remove_members.
    rewrite elem_of_difference, elem_of_singleton. tauto.
  - intros w Hw. rewrite !Contains_members, Remove_members.
    apply bool_decide_ext. rewrite elem_of_difference, elem_of_singleton. tauto.
  - apply Remove_Size.
  - apply Add_Size.
Qed.




























Lemma foldl_commuting {St : Type} (f : K -> St -> St) (l1 l2 : list K) :
  (forall a b st, f a (f b st) = f b (f a st)) ->
  l1 ≡ₚ l2 -> forall st, foldl (fun st k => f k st) st l1 = foldl (fun st k => f k st) st l2.
Proof.
  intros Hcomm Hperm. induction Hperm as [|x l1 l2 _ IH|x y l|l1 l2 l3 _ IH1 _ IH2];
    intros st; simpl.
  - done.
  - apply IH.
  - by rewrite Hcomm.
  - by rewrite IH1, IH2.
Qed.

(** X21. The order in which the map is iterated does not show in the result
    of [Foreach] when the calls of the callback commute (as the additions of
    the test do): any two iteration orders leave the same state. *)
Theorem Foreach_order_irrelevant {St : Type} (range_order' : gmap K bool -> list K)
    (f : K -> St -> St) s (st : St) :
  (forall m, range_order' m ≡ₚ (map_to_list m).*1) ->
  (forall a b st, f a (f b st) = f b (f a st)) ->
  Foreach range_order s f st = Foreach range_order' s f st.
Proof.
  intros Hperm' Hcomm. unfold Foreach. apply foldl_commuting; [done|].
  by rewrite range_order_perm, Hperm'.
Qed.








End Facts.

(** [listed_order] is an admissible iteration order. *)
Lemma listed_order_perm `{Countable K} (m : gmap K bool) :
  listed_order m ≡ₚ (map_to_list m).*1.
Proof. done. Qed.

(** *** The scenarios of the tests *)

Example TestAdd :
  let set := NewSet (K := Z) [] in
  let '(had1, set) := Add set 1 in
  let '(had2, set) := Add set 1 in
  had1 = false /\ had2 = true /\ Size set = 1 /\ Contains set 1 = true.
Proof. vm_compute. done. Qed.

Example TestIsEqual :
  IsEqual listed_order (NewSet [1; 2; 3]) (Some (NewSet [2; 3; 4])) = false /\
  IsEqual listed_order (NewSet [2; 3; 4]) (Some (NewSet [1; 2; 3])) = false /\
  IsEqual listed_order (NewSet [1; 2; 3]) (Some (NewSet [1; 2; 3])) = true.
Proof. vm_compute. done. Qed.

Example TestUnion :
  let set1 := Union listed_order (NewSet [1; 2; 3]) (Some (NewSet [2; 3; 4])) in
  Size set1 = 4 /\ Contains set1 1 = true /\ Contains set1 2 = true /\
  Contains set1 3 = true /\ Contains set1 4 = true.
Proof. vm_compute. done. Qed.



(** **** C7 *)



(** *** Instances of the further properties *)

Example TestRemove :
  let set := NewSet [1; 2; 3] in
  let '(had1, set) := Remove set 1 in
  let '(had2, set) := Remove set 1 in
  let '(had4, set) := Remove set 4 in
  had1 = true /\ had2 = false /\ had4 = false /\ Size set = 2.
Proof. vm_compute. done. Qed.

Example TestIntersect_TestSubtract :
  let i := Intersect listed_order (NewSet [1; 2; 3]) (Some (NewSet [2; 3; 4])) in
  let d := Subtract listed_order (NewSet [1; 2; 3]) (Some (NewSet [2; 3; 4])) in
  Size i = 2 /\ Contains i 2 = true /\ Contains i 3 = true /\
  Size d = 1 /\ Contains d 1 = true.
Proof. vm_compute. done. Qed.

Example TestMap_TestFilter :
  IsEqual listed_order (Map listed_order (NewSet [1; 2; 3]) (fun n => n * 100))
          (Some (NewSet [100; 200; 300])) = true /\
  IsEqual listed_order (Filter listed_order (NewSet [1; 2; 3; 4; 5]) (fun n => n mod 2 =? 0))
          (Some (NewSet [2; 4])) = true.
Proof. vm_compute. done. Qed.

Lemma Remove_reports_and_deletes_witness :
  Contains (Remove (NewSet [1; 2; 3]) 1).2 2 = true.
Proof.
  destruct (Remove_reports_and_deletes (NewSet [1; 2; 3]) 1) as (_ & _ & Hother & _).
  rewrite (Hother 2); [vm_compute; reflexivity | discriminate].
Defined.












(** The keys in the opposite order: another admissible iteration order. *)
Definition reversed_order `{Countable K} (m : gmap K bool) : list K := reverse (listed_order m).

Lemma reversed_order_perm `{Countable K} (m : gmap K bool) :
  reversed_order m ≡ₚ (map_to_list m).*1.
Proof. apply reverse_Permutation. Qed.

(** The sum of the test does not depend on the iteration order. *)
Lemma Foreach_order_irrelevant_witness :
  Foreach listed_order (NewSet [1; 2; 3]) (fun k sum => sum + k) 0
  = Foreach reversed_order (NewSet [1; 2; 3]) (fun k sum => sum + k) 0.
Proof.
  apply (Foreach_order_irrelevant listed_order listed_order_perm reversed_order).
  - apply reversed_order_perm.
  - intros a b st. lia.
Defined.


End CollectionProofs.

(** ** Package errors *)

Module ErrorsProofs.
Import Errors.

(** *** The stack capture returns *)

Lemma blen_nonneg (b : bytes) : 0 <= blen b.
Proof. unfold blen. lia. Qed.

Lemma blen_subslice (b : bytes) (lo hi : Z) :
  0 <= lo <= hi -> hi <= blen b -> blen (subslice b lo hi) = hi - lo.
Proof.
  intros Hlo Hhi. unfold blen, subslice in *.
  rewrite length_take, length_drop. lia.
Qed.

Lemma subslice_all (b : bytes) : subslice b 0 (blen b) = b.
Proof.
  unfold subslice, blen. rewrite Z.sub_0_r, Nat2Z.id. simpl.
  by rewrite firstn_all.
Qed.

Lemma IndexByte_range (b : bytes) (c : ascii) :
  IndexByte b c = -1 \/ 0 <= IndexByte b c < blen b.
Proof.
  induction b as [|x b IH]; simpl; [by left|].
  destruct (Ascii.eqb x c).
  - right. unfold blen. simpl. lia.
  - destruct (IndexByte b c =? -1) eqn:Hr; [by left|].
    apply Z.eqb_neq in Hr. right. unfold blen in *. simpl. lia.
Qed.

Lemma indexNewline_past (b : bytes) (start : Z) :
  blen b <= start -> indexNewline b start = blen b.
Proof.
  intros Hs. unfold indexNewline.
  destruct (start >=? blen b) eqn:Hge; [done|]. rewrite Z.geb_leb in Hge. apply Z.leb_gt in Hge. lia.
Qed.

Lemma indexNewline_range (b : bytes) (start : Z) :
  0 <= start <= blen b -> start <= indexNewline b start <= blen b.
Proof.
  intros Hs. unfold indexNewline.
  destruct (start >=? blen b) eqn:Hge.
  - rewrite Z.geb_leb in Hge. apply Z.leb_le in Hge. lia.
  - rewrite Z.geb_leb in Hge. apply Z.leb_gt in Hge.
    pose proof (IndexByte_range (subslice b start (blen b)) nl) as Hidx.
    rewrite blen_subslice in Hidx by lia.
    destruct (IndexByte (subslice b start (blen b)) nl =? -1) eqn:Hm; [lia|].
    apply Z.eqb_neq in Hm. lia.
Qed.

(** The doubling loop ends with the whole dump in the buffer. *)
Lemma read_stack_spec (dump : bytes) : forall (fuel : nat) (size : Z),
  1 <= size -> blen dump < size + Z.of_nat fuel ->
  read_stack (S fuel) dump size = Ret dump.
Proof.
  induction fuel as [|fuel IH]; intros size Hsize Hfuel.
  - cbn [read_stack].
    assert (Htake : take (Z.to_nat size) dump = dump)
      by (apply take_ge; unfold blen in Hfuel; lia).
    rewrite Htake.
    destruct (blen dump <? size) eqn:Hlt; [by rewrite subslice_all|].
    apply Z.ltb_ge in Hlt. lia.
  - remember (S fuel) as fuel' eqn:Hf. cbn [read_stack].
    destruct (blen (take (Z.to_nat size) dump) <? size) eqn:Hlt.
    + apply Z.ltb_lt in Hlt.
      assert (Htake : take (Z.to_nat size) dump = dump).
      { apply take_ge. unfold blen in Hlt. rewrite length_take in Hlt. lia. }
      by rewrite Htake, subslice_all.
    + subst fuel'. apply IH; [lia|].
      apply Z.ltb_ge in Hlt. unfold blen in Hlt. rewrite length_take in Hlt. lia.
Qed.

(** The frame loop stops at the latest when it reaches the end of the buffer. *)
Lemma frames_loop_spec (buf : bytes) : forall (fuel : nat) (index : Z),
  0 <= index <= blen buf -> blen buf - index < Z.of_nat fuel ->
  exists r, frames_loop fuel buf index index = Ret r /\ index <= r <= blen buf.
Proof.
  induction fuel as [|fuel IH]; intros index Hidx Hfuel; [lia|].
  cbn [frames_loop].
  assert (Hnext : index <= indexNewline buf (index + 1) <= blen buf).
  { destruct (Z.le_gt_cases (blen buf) (index + 1)) as [Hend|Hin].
    - rewrite indexNewline_past by done. lia.
    - pose proof (indexNewline_range buf (index + 1)). lia. }
  destruct (indexNewline buf (index + 1) - index <=? 1) eqn:Hgap.
  - eexists. split; [done|]. lia.
  - apply Z.leb_gt in Hgap.
    destruct (IH (indexNewline buf (index + 1))) as (r & Hr & Hrange); [lia..|].
    exists r. split; [done | lia].
Qed.

Lemma skip_frames_range (buf : bytes) (n : nat) (index : Z) :
  0 <= index <= blen buf ->
  0 <= Nat.iter n (fun index => let index := indexNewline buf (index + 1) in
                                indexNewline buf (index + 1)) index <= blen buf.
Proof.
  intros Hidx. induction n as [|n IH]; simpl; [done|].
  set (i0 := Nat.iter n _ index) in *.
  assert (Hstep : forall i, 0 <= i <= blen buf -> 0 <= indexNewline buf (i + 1) <= blen buf).
  { intros i Hi. destruct (Z.le_gt_cases (blen buf) (i + 1)) as [Hend|Hin].
    - rewrite indexNewline_past by done. lia.
    - pose proof (indexNewline_range buf (i + 1)). lia. }
  by apply Hstep, Hstep.
Qed.

Lemma stackTrace_returns (dump : bytes) (skip : Z) :
  exists stack context, stackTrace dump skip = Ret (stack, context).
Proof.
  unfold stackTrace.
  rewrite read_stack_spec by (pose proof (blen_nonneg dump); unfold blen in *; lia).
  cbn [mbind outcome_bind].
  set (index0 := Nat.iter _ _ _).
  assert (Hrange : 0 <= index0 <= blen dump).
  { apply skip_frames_range. pose proof (indexNewline_range dump 0).
    pose proof (blen_nonneg dump). lia. }
  destruct (frames_loop_spec dump (S (length dump)) index0) as (r & -> & _);
    [done | unfold blen in *; lia |].
  by eexists _, _.
Qed.

Lemma StackTrace_returns (dump : bytes) :
  exists stack context, StackTrace dump = Ret (stack, context).
Proof. apply stackTrace_returns. Qed.

(** *** What the constructors build *)

(** Runs the stack capture of a constructor and exposes the struct it fills. *)
Ltac run_constructor dump :=
  let stack := fresh "stack" in
  let context := fresh "context" in
  let Htrace := fresh "Htrace" in
  destruct (StackTrace_returns dump) as (stack & context & Htrace);
  rewrite Htrace; cbn [mbind outcome_bind];
  exists stack, context.

Section ConstructorFacts.

Variable Arg : Type.
Variable Sprintf : string -> list Arg -> string.

Lemma New_builds dump msg :
  exists stack context,
    New dump msg = Ret (mkBaseError msg stack context DefaultErrCode None).
Proof. unfold New. by run_constructor dump. Qed.

Lemma NewByCode_builds dump code msg :
  exists stack context,
    NewByCode dump code msg = Ret (mkBaseError msg stack context code None).
Proof. unfold NewByCode. by run_constructor dump. Qed.

Lemma Newf_builds dump format args :
  exists stack context,
    Newf Arg Sprintf dump format args
    = Ret (mkBaseError (Sprintf format args) stack context DefaultErrCode None).
Proof. unfold Newf. by run_constructor dump. Qed.

Lemma NewfByCode_builds dump code format args :
  exists stack context,
    NewfByCode Arg Sprintf dump code format args
    = Ret (mkBaseError (Sprintf format args) stack context code None).
Proof. unfold NewfByCode. by run_constructor dump. Qed.

Lemma Wrap_builds dump err msg :
  exists stack context,
    Wrap dump err msg = Ret (mkBaseError msg stack context DefaultErrCode err).
Proof. unfold Wrap. by run_constructor dump. Qed.

Lemma WrapByCode_builds dump code err msg :
  exists stack context,
    WrapByCode dump code err msg = Ret (mkBaseError msg stack context code err).
Proof. unfold WrapByCode. by run_constructor dump. Qed.

Lemma Wrapf_builds dump err format args :
  exists stack context,
    Wrapf Arg Sprintf dump err format args
    = Ret (mkBaseError (Sprintf format args) stack context DefaultErrCode err).
Proof. unfold Wrapf. by run_constructor dump. Qed.

Lemma WrapfByCode_builds dump code err format args :
  exists stack context,
    WrapfByCode Arg Sprintf dump code err format args
    = Ret (mkBaseError (Sprintf format args) stack context code err).
Proof. unfold WrapfByCode. by run_constructor dump. Qed.

(** **** C8 *)

(** C8. [New], [Newf], [Wrap] and [Wrapf] return an error whose [Code()] is
    the sentinel -1; [NewByCode], [NewfByCode], [WrapByCode] and
    [WrapfByCode] return an error whose [Code()] is the code they were
    given. *)
Theorem constructors_set_code (dump : bytes) (code : Z) (msg format : string)
    (args : list Arg) (err : option error) :
  DefaultErrCode = -1 /\
  (exists e, New dump msg = Ret e /\ Code e = -1) /\
  (exists e, Newf Arg Sprintf dump format args = Ret e /\ Code e = -1) /\
  (exists e, Wrap dump err msg = Ret e /\ Code e = -1) /\
  (exists e, Wrapf Arg Sprintf dump err format args = Ret e /\ Code e = -1) /\
  (exists e, NewByCode dump code msg = Ret e /\ Code e = code) /\
  (exists e, NewfByCode Arg Sprintf dump code format args = Ret e /\ Code e = code) /\
  (exists e, WrapByCode dump code err msg = Ret e /\ Code e = code) /\
  (exists e, WrapfByCode Arg Sprintf dump code err format args = Ret e /\ Code e = code).
Proof.
  split_and!; [done|..].
  - destruct (New_builds dump msg) as (? & ? & ->). by eexists.
  - destruct (Newf_builds dump format args) as (? & ? & ->). by eexists.
  - destruct (Wrap_builds dump err msg) as (? & ? & ->). by eexists.
  - destruct (Wrapf_builds dump err format args) as (? & ? & ->). by eexists.
  - destruct (NewByCode_builds dump code msg) as (? & ? & ->). by eexists.
  - destruct (NewfByCode_builds dump code format args) as (? & ? & ->). by eexists.
  - destruct (WrapByCode_builds dump code err msg) as (? & ? & ->). by eexists.
  - destruct (WrapfByCode_builds dump code err format args) as (? & ? & ->). by eexists.
Qed.

End ConstructorFacts.

(** *** The chain walk of [Message] *)

(** The messages [Message] collects below a chain node, outermost first. *)
Fixpoint chain_messages (e : baseError) : list string :=
  Message_of e ::
  match Inner e with
  | None => []
  | Some (IsError e') => chain_messages e'
  | Some (RuntimeError text) => [text]
  | Some (OtherError text) => [text]
  end.

(** The number of chain nodes from [e] inwards. *)
Fixpoint chain_length (e : baseError) : nat :=
  S (match Inner e with
     | Some (IsError e') => chain_length e'
     | _ => 0%nat
     end).

Lemma Message_loop_bounded (n : nat) : forall e ret,
  (chain_length e <= n)%nat -> Message_loop e ret = ret ++ chain_messages e.
Proof.
  induction n as [|n IH]; intros [message stack context code inner] ret Hn;
    [simpl in Hn; lia|].
  destruct inner as [[e'|text|text]|]; simpl in *.
  - rewrite IH by lia. by rewrite <- app_assoc.
  - by rewrite <- app_assoc.
  - by rewrite <- app_assoc.
  - done.
Qed.

Lemma Message_loop_spec (e : baseError) (ret : list string) :
  Message_loop e ret = ret ++ chain_messages e.
Proof. by apply (Message_loop_bounded (chain_length e)). Qed.

Lemma Message_chain (e : baseError) :
  Message (DynError (IsError e)) = Join (chain_messages e) " ".
Proof. unfold Message. by rewrite Message_loop_spec. Qed.

(** **** C9 *)


(** **** C10 *)

(** C10. [SetCode(c)] changes the code and nothing else: afterwards [Code()]
    is [c], and [Message()], [Stack()], [Context()] and [Inner()] are what
    they were. *)
Theorem SetCode_changes_only_code (e : baseError) (c : Z) :
  Code (SetCode e c) = c /\
  Message_of (SetCode e c) = Message_of e /\
  Stack (SetCode e c) = Stack e /\
  Context (SetCode e c) = Context e /\
  Inner (SetCode e c) = Inner e.
Proof. by destruct e. Qed.

(** *** Further properties of the package *)

Lemma Join_cons (a b : string) (l : list string) (sep : string) :
  Join (a :: b :: l) sep = a +:+ sep +:+ Join (b :: l) sep.
Proof. done. Qed.

Lemma chain_messages_head (e : baseError) :
  exists tail, chain_messages e = Message_of e :: tail.
Proof. destruct e as [m st c code inner]. by eexists. Qed.

(** X23. [Message] follows the wrapping: for the error that [Wrap] returns
    it is the wrapper's message alone when the cause is nil, the message, a
    space and [Message] of the cause when the cause is an [Error], and the
    message, a space and the text of the cause when it is any other error;
    while [Message] applied directly to an error that is neither an [Error]
    nor a [runtime.Error] is the fixed diagnostic, not its text. *)
Theorem Message_follows_Wrap (dump : bytes) (cause : option error) (msg text : string) :
  (exists e, Wrap dump cause msg = Ret e /\
     Message (DynError (IsError e))
     = match cause with
       | None => msg
       | Some (IsError c) => msg +:+ " " +:+ Message (DynError (IsError c))
       | Some (RuntimeError t) => msg +:+ " " +:+ t
       | Some (OtherError t) => msg +:+ " " +:+ t
       end) /\
  Message (DynError (OtherError text)) = "Passed a non-error to Message" /\
  Message (DynError (RuntimeError text)) = text.
Proof.
  split_and!; [|done..].
  destruct (Wrap_builds dump cause msg) as (stack & context & ->). eexists. split; [done|].
  rewrite Message_chain.
  destruct cause as [[c|t|t]|]; [|done..].
  rewrite Message_chain. cbn [chain_messages Inner Message_of].
  destruct (chain_messages_head c) as (tail & ->). apply Join_cons.
Qed.

(** The stack of the innermost chain node from [e] inwards. *)
Fixpoint innermost_stack (e : baseError) : string :=
  match Inner e with
  | Some (IsError e') => innermost_stack e'
  | _ => Stack e
  end.

Lemma fillErrorInfo_at_bounded (n : nat) : forall e lines origStack,
  (chain_length e <= n)%nat ->
  fillErrorInfo_at (IsError e) (lines, origStack)
  = (lines ++ chain_messages e, innermost_stack e).
Proof.
  induction n as [|n IH]; intros [message stack context code inner] lines origStack Hn;
    [simpl in Hn; lia|].
  destruct inner as [[e'|text|text]|]; simpl in *.
  - rewrite (IH e' (lines ++ [message]) origStack) by lia. by rewrite <- app_assoc.
  - by rewrite <- app_assoc.
  - by rewrite <- app_assoc.
  - done.
Qed.

Lemma DefaultError_eq (e : baseError) :
  DefaultError e
  = Join (["ERROR:"] ++ chain_messages e ++ [""; "ORIGINAL STACK TRACE:"; innermost_stack e])
         newline.
Proof.
  unfold DefaultError, fillErrorInfo.
  rewrite (fillErrorInfo_at_bounded (chain_length e)) by done.
  by rewrite <- !app_assoc.
Qed.

(** X24. [Error()] of an [Error] is, one per line: "ERROR:", the pieces that
    [Message] joins with spaces, an empty line, "ORIGINAL STACK TRACE:" and
    the stack of the innermost [Error] of the chain.  So wrapping an [Error]
    adds the wrapper's message as the first piece and leaves the reported
    stack as it was, and wrapping nil or another kind of error reports the
    wrapper's own stack. *)
Theorem Error_renders_chain_and_innermost_stack (e c : baseError) (dump : bytes)
    (msg text : string) :
  DefaultError e
  = Join (["ERROR:"] ++ chain_messages e ++ [""; "ORIGINAL STACK TRACE:"; innermost_stack e])
         newline /\
  Message (DynError (IsError e)) = Join (chain_messages e) " " /\
  (exists w, Wrap dump (Some (IsError c)) msg = Ret w /\
     chain_messages w = msg :: chain_messages c /\
     innermost_stack w = innermost_stack c) /\
  (exists w, Wrap dump None msg = Ret w /\
     chain_messages w = [msg] /\ innermost_stack w = Stack w) /\
  (exists w, Wrap dump (Some (OtherError text)) msg = Ret w /\
     chain_messages w = [msg; text] /\ innermost_stack w = Stack w).
Proof.
  split_and!.
  - apply DefaultError_eq.
  - apply Message_chain.
  - destruct (Wrap_builds dump (Some (IsError c)) msg) as (? & ? & ->). by eexists.
  - destruct (Wrap_builds dump None msg) as (? & ? & ->). by eexists.
  - destruct (Wrap_builds dump (Some (OtherError text)) msg) as (? & ? & ->). by eexists.
Qed.

(** X25. The code is not rendered: changing it with [SetCode] changes neither
    [Message] nor [Error()] of the error. *)
Theorem SetCode_is_not_rendered (e : baseError) (code : Z) :
  Message (DynError (IsError (SetCode e code))) = Message (DynError (IsError e)) /\
  Error_of (IsError (SetCode e code)) = Error_of (IsError e).
Proof.
  destruct e as [m st c code0 inner]. split.
  - by rewrite !Message_chain.
  - cbn [Error_of]. by rewrite !DefaultError_eq.
Qed.

Section ConstructorLaws.

Variable Arg : Type.
Variable Sprintf : string -> list Arg -> string.

(** X26. The constructors differ only in what they store: the error [Wrap]
    returns has the given message and cause and the stack and context that
    [StackTrace] returns for the dump; [New] is [Wrap] of nil; the formatted
    variants are the plain ones given the text of [fmt.Sprintf]; and each
    [ByCode] variant returns what the plain one returns after
    [SetCode(code)]. *)
Theorem constructors_share_one_shape (dump : bytes) (code : Z) (msg format : string)
    (args : list Arg) (err : option error) :
  (exists e stack context,
     StackTrace dump = Ret (stack, context) /\ Wrap dump err msg = Ret e /\
     Message_of e = msg /\ Inner e = err /\ Stack e = stack /\ Context e = context) /\
  New dump msg = Wrap dump None msg /\
  Newf Arg Sprintf dump format args = New dump (Sprintf format args) /\
  Wrapf Arg Sprintf dump err format args = Wrap dump err (Sprintf format args) /\
  NewByCode dump code msg = (New dump msg ≫= fun e => Ret (SetCode e code)) /\
  WrapByCode dump code err msg = (Wrap dump err msg ≫= fun e => Ret (SetCode e code)) /\
  NewfByCode Arg Sprintf dump code format args
  = (Newf Arg Sprintf dump format args ≫= fun e => Ret (SetCode e code)) /\
  WrapfByCode Arg Sprintf dump code err format args
  = (Wrapf Arg Sprintf dump err format args ≫= fun e => Ret (SetCode e code)).
Proof.
  unfold New, Newf, Wrap, Wrapf, NewByCode, NewfByCode, WrapByCode, WrapfByCode.
  destruct (StackTrace_returns dump) as (stack & context & ->).
  cbn [mbind outcome_bind]. split_and!; [|done..].
  by eexists _, stack, context.
Qed.

End ConstructorLaws.

(** *** The shape of a captured stack *)


Lemma subslice_to_end (b : bytes) (lo : Z) : subslice b lo (blen b) = drop (Z.to_nat lo) b.
Proof.
  unfold subslice, blen. apply take_ge. rewrite length_drop. lia.
Qed.


(** [IndexByte] finds the first occurrence. *)
Lemma IndexByte_first (b : bytes) (c : ascii) :
  (IndexByte b c = -1 /\ (c ∉ b)) \/
  (0 <= IndexByte b c < blen b /\
   b !! Z.to_nat (IndexByte b c) = Some c /\ (c ∉ take (Z.to_nat (IndexByte b c)) b)).
Proof.
  induction b as [|x b IH]; simpl.
  - left. split; [done | apply not_elem_of_nil].
  - destruct (Ascii.eqb x c) eqn:Hx.
    + apply Ascii.eqb_eq in Hx as ->. right. unfold blen. simpl.
      split_and!; [lia | lia | done | apply not_elem_of_nil].
    + apply Ascii.eqb_neq in Hx.
      destruct IH as [[-> Hnot]|(Hrange & Hat & Hbefore)].
      * left. split; [done|]. by intros [->|?]%elem_of_cons.
      * destruct (IndexByte b c =? -1) eqn:Hm; [lia|]. right.
        replace (Z.to_nat (IndexByte b c + 1)) with (S (Z.to_nat (IndexByte b c))) by lia.
        unfold blen in *. simpl. split_and!; [lia | lia | done |].
        by intros [->|?]%elem_of_cons.
Qed.

Lemma indexNewline_first (b : bytes) (start : Z) :
  0 <= start <= blen b ->
  (nl ∉ subslice b start (indexNewline b start)) /\
  (indexNewline b start < blen b -> b !! Z.to_nat (indexNewline b start) = Some nl).
Proof.
  intros Hs. unfold indexNewline. destruct (start >=? blen b) eqn:Hge.
  - rewrite Z.geb_leb in Hge. apply Z.leb_le in Hge.
    split; [|lia]. unfold subslice. replace (blen b - start) with 0 by lia.
    apply not_elem_of_nil.
  - rewrite Z.geb_leb in Hge. apply Z.leb_gt in Hge.
    rewrite subslice_to_end.
    destruct (IndexByte_first (drop (Z.to_nat start) b) nl)
      as [[-> Hnot]|(Hrange & Hat & Hbefore)]; simpl.
    + split; [by rewrite subslice_to_end | lia].
    + destruct (IndexByte (drop (Z.to_nat start) b) nl =? -1) eqn:Hm; [lia|].
      split.
      * unfold subslice.
        by replace (start + IndexByte (drop (Z.to_nat start) b) nl - start)
          with (IndexByte (drop (Z.to_nat start) b) nl) by lia.
      * intros _.
        replace (Z.to_nat (start + IndexByte (drop (Z.to_nat start) b) nl))
          with (Z.to_nat start + Z.to_nat (IndexByte (drop (Z.to_nat start) b) nl))%nat by lia.
        rewrite <- Hat. symmetry. apply (lookup_drop b).
Qed.

(** X27. The helper [indexNewline] returns the position of the first newline
    at or after [start], and the length of the buffer when there is none or
    when [start] is at or past the end: the result lies between [start] and
    the length, no newline stands between [start] and the result, and a
    result before the end is the position of a newline. *)
Theorem indexNewline_finds_next_newline (b : bytes) (start : Z) :
  (blen b <= start -> indexNewline b start = blen b) /\
  (0 <= start <= blen b ->
   start <= indexNewline b start <= blen b /\
   (nl ∉ subslice b start (indexNewline b start)) /\
   (indexNewline b start < blen b -> b !! Z.to_nat (indexNewline b start) = Some nl)).
Proof.
  split; [apply indexNewline_past|]. intros Hs.
  split; [by apply indexNewline_range | by apply indexNewline_first].
Qed.




(** A dump of two lines: the header and one more. *)
Definition two_lines : bytes :=
  String.list_ascii_of_string "goroutine 1 [running]:" ++ nl :: String.list_ascii_of_string "main.main()".

Lemma indexNewline_finds_next_newline_witness :
  0 <= indexNewline two_lines 0 <= blen two_lines /\
  (nl ∉ subslice two_lines 0 (indexNewline two_lines 0)).
Proof.
  destruct (indexNewline_finds_next_newline two_lines 0) as [_ Hin].
  destruct Hin as (Hrange & Hnonl & _).
  - vm_compute. split; discriminate.
  - split; [exact Hrange | exact Hnonl].
Defined.


Example stackTrace_drops_the_capturing_frames :
  let line (s : string) := String.list_ascii_of_string s ++ [nl] in
  let dump :=
    line "goroutine 1 [running]:" ++
    line "errors.stackTrace(...)" ++ line "  errors.go:251" ++
    line "errors.StackTrace(...)" ++ line "  errors.go:301" ++
    line "errors.New(...)" ++ line "  errors.go:153" ++
    line "main.main()" ++ line "  main.go:7" ++
    line "" ++ line "goroutine 2 [idle]:" in
  StackTrace dump
  = Ret (String.string_of_list_ascii
           (String.list_ascii_of_string "goroutine 1 [running]:" ++ [nl] ++
            line "main.main()" ++ line "  main.go:7"),
         String.string_of_list_ascii (line "" ++ line "goroutine 2 [idle]:")).
Proof. vm_compute. reflexivity. Qed.

(** *** The scenario of the test *)

Example TestWrappedError :
  let inner := OtherError "I am inner error" in
  let middle := mkBaseError "I am the middle error" "s1" "" DefaultErrCode (Some inner) in
  let outer := mkBaseError "I am the mighty outer error" "s2" "" DefaultErrCode
                 (Some (IsError middle)) in
  Error_of (IsError outer)
  = Join ["ERROR:"; "I am the mighty outer error"; "I am the middle error";
          "I am inner error"; ""; "ORIGINAL STACK TRACE:"; "s1"] newline.
Proof. reflexivity. Qed.

Example Message_of_non_error :
  Message DynOther = "Passed a non-error to Message" /\
  Message (DynError (OtherError "plain")) = "Passed a non-error to Message" /\
  Message (DynError (RuntimeError "index out of range")) = "index out of range".
Proof. by split_and!. Qed.

End ErrorsProofs.
